(** * Projection engine of rentobuy (web/src/lib/calculator.ts)

    Shallow embedding of the TypeScript calculator.  JavaScript numbers are
    modelled as exact reals [R]: the development reasons about the engine's
    arithmetic without floating-point rounding.  Where the code can read a
    missing array slot ([undefined]) the value is a [num], an [option R]
    whose [None] is the NaN that the read produces and that every later
    arithmetic operation propagates.  Month counts and year counts are whole
    numbers ([nat]): durations come from a parser that produces whole months.
    JavaScript's [x / 0] is an infinity or NaN whereas the reals' [x / 0] is
    [0]; statements whose value depends on such a division exclude it by
    hypothesis. *)

From Stdlib Require Import Reals Rpower Lra Lia ZArith List String Ascii.
From Stdlib Require Import QArith Qreals Sorted.
Import ListNotations.

Open Scope R_scope.

(** ** JavaScript numbers with NaN *)

Definition num := option R.
Abbreviation NaN := (@None R).

Definition nlift2 (f : R -> R -> R) (a b : num) : num :=
  match a, b with
  | Some x, Some y => Some (f x y)
  | _, _ => NaN
  end.

Definition nadd := nlift2 Rplus.
Definition nsub := nlift2 Rminus.
Definition nmul := nlift2 Rmult.

(** [arr[k]] for an integer index [k]: [undefined] (hence NaN once used in
    arithmetic) below 0 or past the end. *)
Definition js_index (l : list R) (k : Z) : num :=
  if (k <? 0)%Z then NaN else nth_error l (Z.to_nat k).

(** ** Inputs (types.ts) *)

Inductive ScenarioType := buy_vs_rent | sell_vs_keep | payoff_vs_invest.

Definition is_sell_vs_keep (s : ScenarioType) : bool :=
  match s with sell_vs_keep => true | _ => false end.

Record CalculatorInputs := {
  scenario : ScenarioType;
  inflationRate : R;
  investmentReturnRate : R;
  projectionYears : nat;
  purchasePrice : R;
  currentMarketValue : option R;
  annualInsurance : R;
  annualTaxes : R;
  annualIncome : R;
  appreciationRate : list R;
  loanAmount : R;
  loanRate : R;
  loanTerm : nat;
  remainingLoanTerm : option nat;
  includeRefinance : option bool;
  payoffBalance : option R;
  closingCosts : option R;
  mortgageInterestDeduction : R;
  extraMonthlyPayment : option R;
  extraUpfrontPayment : option R;
  recalculatePayment : option bool;
  rentDeposit : R;
  monthlyRent : R;
  annualRentCosts : R;
  otherAnnualCosts : R;
  includeSelling : bool;
  includeRentingSell : option bool;
  agentCommission : R;
  stagingCosts : R;
  taxFreeLimits : list R;
  capitalGainsTax : R
}.

(** ** calculateMonthlyPayment *)

Definition calculateMonthlyPayment (principal monthlyRate : R) (months : nat) : R :=
  if Req_EM_T monthlyRate 0 then principal / INR months
  else
    let factor := (1 + monthlyRate) ^ months in
    (principal * (monthlyRate * factor)) / (factor - 1).

(** ** getEffectiveLoanValues *)

Record EffectiveLoanValues := {
  effectiveLoanAmount : R;
  effectiveLoanTerm : nat;
  monthlyLoanPayment : R;
  refinanceCashOut : R
}.

(** [n] level payments against [balance]: the loop over the elapsed months
    of getEffectiveLoanValues, also the balance recurrence of
    populateMonthlyCosts. *)
Fixpoint amortize (payment monthlyRate : R) (n : nat) (balance : R) : R :=
  match n with
  | O => balance
  | S k =>
      let interestPayment := balance * monthlyRate in
      let principalPayment := payment - interestPayment in
      amortize payment monthlyRate k (balance - principalPayment)
  end.

Definition getEffectiveLoanValues (inputs : CalculatorInputs) : EffectiveLoanValues :=
  if Rle_dec (loanAmount inputs) 0 then
    {| effectiveLoanAmount := 0; effectiveLoanTerm := 0;
       monthlyLoanPayment := 0; refinanceCashOut := 0 |}
  else
    let monthlyRate := loanRate inputs / 100 / 12 in
    if match includeRefinance inputs with Some true => true | _ => false end then
      let payment := calculateMonthlyPayment (loanAmount inputs) monthlyRate (loanTerm inputs) in
      let payoffBalance := match payoffBalance inputs with Some v => v | None => 0 end in
      let closingCosts := match closingCosts inputs with Some v => v | None => 0 end in
      {| effectiveLoanAmount := loanAmount inputs;
         effectiveLoanTerm := loanTerm inputs;
         monthlyLoanPayment := payment;
         refinanceCashOut := loanAmount inputs - payoffBalance - closingCosts |}
    else
      let remainingTerm :=
        match remainingLoanTerm inputs with Some t => t | None => loanTerm inputs end in
      if (loanTerm inputs <=? remainingTerm)%nat then
        {| effectiveLoanAmount := loanAmount inputs;
           effectiveLoanTerm := loanTerm inputs;
           monthlyLoanPayment :=
             calculateMonthlyPayment (loanAmount inputs) monthlyRate (loanTerm inputs);
           refinanceCashOut := 0 |}
      else
        let originalPayment :=
          calculateMonthlyPayment (loanAmount inputs) monthlyRate (loanTerm inputs) in
        let monthsElapsed := (loanTerm inputs - remainingTerm)%nat in
        let balance := amortize originalPayment monthlyRate monthsElapsed (loanAmount inputs) in
        {| effectiveLoanAmount := balance;
           effectiveLoanTerm := remainingTerm;
           monthlyLoanPayment := calculateMonthlyPayment balance monthlyRate remainingTerm;
           refinanceCashOut := 0 |}.

(** ** populateMonthlyCosts *)

(** The [let] variables of the month loop. *)
Record CostState := {
  currentRentingCost : R;
  currentRecurringExpenses : R;
  currentBalance : R;
  totalPrincipalPaid : R;
  totalInterestPaid : R
}.

(** What month [i] writes into the five arrays. *)
Record CostRow := {
  buyingCost : R;
  rentingCost : R;
  loanBalanceAt : R;
  principalToDate : R;
  interestToDate : R
}.

Section MonthLoop.
Variables (inflationRate monthlyRate taxDeductionRate monthlyLoanPayment : R).
Variable effectiveLoanTerm : nat.

(** [if (i > 0 && i % 12 === 0)]: both running costs grow by inflation. *)
Definition inflate (i : nat) (s : CostState) : CostState :=
  if ((0 <? i) && (i mod 12 =? 0))%nat then
    {| currentRentingCost := currentRentingCost s * (1 + inflationRate / 100);
       currentRecurringExpenses := currentRecurringExpenses s * (1 + inflationRate / 100);
       currentBalance := currentBalance s;
       totalPrincipalPaid := totalPrincipalPaid s;
       totalInterestPaid := totalInterestPaid s |}
  else s.

(** One iteration of the [for] loop, at month [i]. *)
Definition month_step (i : nat) (s0 : CostState) : CostState * CostRow :=
  let s := inflate i s0 in
  if (i <? effectiveLoanTerm)%nat then
    let interestPayment := currentBalance s * monthlyRate in
    let principalPayment := monthlyLoanPayment - interestPayment in
    let effectiveInterestPayment := interestPayment * (1 - taxDeductionRate) in
    let buying := principalPayment + effectiveInterestPayment + currentRecurringExpenses s in
    let balance := currentBalance s - principalPayment in
    let tp := totalPrincipalPaid s + principalPayment in
    let ti := totalInterestPaid s + interestPayment in
    ({| currentRentingCost := currentRentingCost s;
        currentRecurringExpenses := currentRecurringExpenses s;
        currentBalance := balance;
        totalPrincipalPaid := tp;
        totalInterestPaid := ti |},
     {| buyingCost := buying;
        rentingCost := currentRentingCost s;
        loanBalanceAt := balance;
        principalToDate := tp;
        interestToDate := ti |})
  else
    (s,
     {| buyingCost := currentRecurringExpenses s;
        rentingCost := currentRentingCost s;
        loanBalanceAt := 0;
        principalToDate := totalPrincipalPaid s;
        interestToDate := totalInterestPaid s |}).

(** Months [i], [i+1], ..., [i+fuel-1]: the rows they write. *)
Fixpoint month_loop (i fuel : nat) (s : CostState) : list CostRow :=
  match fuel with
  | O => []
  | S f => let '(s', row) := month_step i s in row :: month_loop (S i) f s'
  end.

(** The loop variables after months [i], ..., [i+n-1]. *)
Fixpoint run_months (i n : nat) (s : CostState) : CostState :=
  match n with
  | O => s
  | S k => run_months (S i) k (fst (month_step i s))
  end.
End MonthLoop.

Record MonthlyCosts := {
  monthlyBuyingCosts : list R;
  monthlyRentingCosts : list R;
  remainingLoanBalance : list R;
  cumulativePrincipalPaid : list R;
  cumulativeInterestPaid : list R
}.

Definition populateMonthlyCosts (inputs : CalculatorInputs) : MonthlyCosts :=
  let maxMonths := 360%nat in
  let totalAnnualExpenses := annualInsurance inputs + annualTaxes inputs in
  let monthlyRecurringExpenses := totalAnnualExpenses / 12 - annualIncome inputs / 12 in
  let monthlyRate := loanRate inputs / 100 / 12 in
  let elv := getEffectiveLoanValues inputs in
  let taxDeductionRate := mortgageInterestDeduction inputs / 100 in
  let s0 := {| currentRentingCost :=
                 monthlyRent inputs + annualRentCosts inputs / 12 + otherAnnualCosts inputs / 12;
               currentRecurringExpenses := monthlyRecurringExpenses;
               currentBalance := effectiveLoanAmount elv;
               totalPrincipalPaid := 0;
               totalInterestPaid := 0 |} in
  let rows := month_loop (inflationRate inputs) monthlyRate taxDeductionRate
                (monthlyLoanPayment elv) (effectiveLoanTerm elv) 0 maxMonths s0 in
  {| monthlyBuyingCosts := map buyingCost rows;
     monthlyRentingCosts := map rentingCost rows;
     remainingLoanBalance := map loanBalanceAt rows;
     cumulativePrincipalPaid := map principalToDate rows;
     cumulativeInterestPaid := map interestToDate rows |}.

(** ** calculateKeepInvestmentTracking *)

Record KeepTracking := {
  monthlyKeepNetPosition : list num;
  monthlyKeepInvestmentReturns : list R
}.

(** Months [i], ..., [i+fuel-1] of the loop; [netPosition] becomes NaN if a
    month reads past the end of [monthlyBuyingCosts]. *)
Fixpoint keep_loop (monthlyBuyingCosts : list R) (monthlyInvestmentRate : R)
    (i fuel : nat) (netPosition : num) (totalReturns : R) : list (num * R) :=
  match fuel with
  | O => []
  | S f =>
      let monthlyCost := nth_error monthlyBuyingCosts i in
      let netPosition := nsub netPosition monthlyCost in
      let '(netPosition, totalReturns) :=
        match netPosition with
        | Some np =>
            if Rlt_dec 0 np then
              let monthlyReturn := np * monthlyInvestmentRate in
              (Some (np * (1 + monthlyInvestmentRate)), totalReturns + monthlyReturn)
            else (Some np, totalReturns)
        | None => (NaN, totalReturns)
        end in
      (netPosition, totalReturns)
        :: keep_loop monthlyBuyingCosts monthlyInvestmentRate (S i) f netPosition totalReturns
  end.

Definition calculateKeepInvestmentTracking (monthlyBuyingCosts : list R)
    (investmentReturnRate : R) (maxMonths : nat) (initialCashOut : R) : KeepTracking :=
  let monthlyInvestmentRate := investmentReturnRate / 100 / 12 in
  let rows := keep_loop monthlyBuyingCosts monthlyInvestmentRate 0 maxMonths
                (Some initialCashOut) 0 in
  {| monthlyKeepNetPosition := map fst rows;
     monthlyKeepInvestmentReturns := map snd rows |}.

(** ** calculateAssetValue *)

(** [Math.pow(x, y)] at an exponent [y] strictly between 0 and 1 (here
    [remainingMonths / 12]): [x^y] for [x > 0], [0] for [x = 0], NaN for a
    negative base. *)
Definition js_pow_frac (x y : R) : num :=
  if Rlt_dec 0 x then Some (Rpower x y)
  else if Req_EM_T x 0 then Some 0
  else NaN.

(** The rate used for year [year]: [appreciationRates[Math.min(year, length - 1)]]. *)
Definition rate_for_year (appreciationRates : list R) (year : nat) : num :=
  js_index appreciationRates
    (Z.min (Z.of_nat year) (Z.of_nat (List.length appreciationRates) - 1)).

(** The whole-year loop [for (year = y; year < y + n; year++)]. *)
Fixpoint appreciate_years (appreciationRates : list R) (year n : nat) (assetValue : num) : num :=
  match n with
  | O => assetValue
  | S k =>
      let factor := option_map (fun r => 1 + r / 100) (rate_for_year appreciationRates year) in
      appreciate_years appreciationRates (S year) k (nmul assetValue factor)
  end.

Definition calculateAssetValue (startingPrice : R) (months : nat)
    (appreciationRates : list R) : num :=
  let years := (months / 12)%nat in
  let remainingMonths := (months mod 12)%nat in
  let assetValue := appreciate_years appreciationRates 0 years (Some startingPrice) in
  if (0 <? remainingMonths)%nat then
    let partialYearFactor :=
      match rate_for_year appreciationRates years with
      | Some r => js_pow_frac (1 + r / 100) (INR remainingMonths / 12)
      | None => NaN
      end in
    nmul assetValue partialYearFactor
  else assetValue.

(** ** calculateSaleProceeds *)

Record SaleProceeds := {
  salePrice : num;
  totalSellingCosts : num;
  loanPayoff : num;
  capitalGains : num;
  taxOnGains : num;
  netProceeds : num
}.

(** [inputs.taxFreeLimits[Math.max(0, Math.min(years - 1, length - 1))] || 0]:
    an undefined slot and a 0 both give 0. *)
Definition taxFreeLimitAt (taxFreeLimits : list R) (years : nat) : R :=
  let taxFreeLimitIndex :=
    Z.max 0 (Z.min (Z.of_nat years - 1) (Z.of_nat (List.length taxFreeLimits) - 1)) in
  match js_index taxFreeLimits taxFreeLimitIndex with
  | Some v => v
  | None => 0
  end.

(** [effectiveLoanAmount] is the optional argument ([None] = undefined). *)
Definition calculateSaleProceeds (inputs : CalculatorInputs) (months : nat)
    (remainingLoanBalance : list R) (effectiveLoanAmount : option R)
    (includeSelling : bool) : SaleProceeds :=
  let startingPrice :=
    match scenario inputs, currentMarketValue inputs with
    | sell_vs_keep, Some v => if Req_EM_T v 0 then purchasePrice inputs else v
    | _, _ => purchasePrice inputs
    end in
  let salePrice := calculateAssetValue startingPrice months (appreciationRate inputs) in
  let loanPayoff :=
    if (months =? 0)%nat then
      match effectiveLoanAmount with
      | Some e => Some e
      | None =>
          let firstMonthBalance := js_index remainingLoanBalance 0 in
          let secondMonthBalance := js_index remainingLoanBalance 1 in
          let firstPrincipalPayment := nsub firstMonthBalance secondMonthBalance in
          nadd firstMonthBalance firstPrincipalPayment
      end
    else
      js_index remainingLoanBalance
        (Z.min (Z.of_nat months - 1) (Z.of_nat (List.length remainingLoanBalance) - 1)) in
  if negb includeSelling then
    {| salePrice := salePrice; totalSellingCosts := Some 0; loanPayoff := loanPayoff;
       capitalGains := Some 0; taxOnGains := Some 0;
       netProceeds := nsub salePrice loanPayoff |}
  else
    let years := (months / 12)%nat in
    let inflatedStagingCosts := stagingCosts inputs * (1 + inflationRate inputs / 100) ^ years in
    let agentFee := nmul salePrice (Some (agentCommission inputs / 100)) in
    let totalSellingCosts := nadd agentFee (Some inflatedStagingCosts) in
    let capitalGains := nsub (nsub salePrice (Some (purchasePrice inputs))) totalSellingCosts in
    let taxFreeLimit := taxFreeLimitAt (taxFreeLimits inputs) years in
    let taxableGains := option_map (Rmax 0) (nsub capitalGains (Some taxFreeLimit)) in
    let taxOnGains := nmul taxableGains (Some (capitalGainsTax inputs / 100)) in
    let netProceeds :=
      nsub (nsub (nsub salePrice totalSellingCosts) loanPayoff) taxOnGains in
    {| salePrice := salePrice; totalSellingCosts := totalSellingCosts;
       loanPayoff := loanPayoff; capitalGains := capitalGains;
       taxOnGains := taxOnGains; netProceeds := netProceeds |}.

(** ** getPeriods *)

Record Period := { label : string; months : nat }.

Fixpoint string_of_nat_aux (fuel n : nat) (acc : string) : string :=
  match fuel with
  | O => acc
  | S f =>
      let acc' := String (ascii_of_nat (48 + n mod 10)) acc in
      if (n <? 10)%nat then acc' else string_of_nat_aux f (n / 10) acc'
  end.

(** [n.toString()] *)
Definition string_of_nat (n : nat) : string := string_of_nat_aux (S n) n EmptyString.

Fixpoint spaces (n : nat) : string :=
  match n with O => EmptyString | S k => String " "%char (spaces k) end.

(** [s.padStart(3)] *)
Definition padStart3 (s : string) : string :=
  String.append (spaces (3 - String.length s)) s.

Definition year_label (year : nat) : string :=
  String.append (padStart3 (string_of_nat year)) "y".

Definition loan_term_label (year : nat) : string :=
  String.append "X" (year_label year).

Definition getPeriods (loanDuration projectionYears : nat) : list Period :=
  let maxYears := projectionYears in
  let maxMonths := (maxYears * 12)%nat in
  map (fun year =>
         let months := (year * 12)%nat in
         if ((0 <? loanDuration) && (loanDuration =? months)
             && (loanDuration mod 12 =? 0) && (loanDuration <=? maxMonths))%nat
         then {| label := loan_term_label year; months := months |}
         else {| label := year_label year; months := months |})
      (seq 0 (S maxYears)).

(** ** calculate: the sale-proceeds table

    The part of [calculate] that builds [saleProceedsTable]; for
    sell_vs_keep it always includes selling costs. *)
Definition calculate_saleProceedsTable (inputs : CalculatorInputs)
    : list (string * SaleProceeds) :=
  let costs := populateMonthlyCosts inputs in
  let elv := getEffectiveLoanValues inputs in
  let periods := getPeriods (effectiveLoanTerm elv) (projectionYears inputs) in
  let shouldIncludeSelling :=
    if is_sell_vs_keep (scenario inputs) then true else includeSelling inputs in
  map (fun period =>
         (String.append "SALE " (label period),
          calculateSaleProceeds inputs (months period) (remainingLoanBalance costs)
            (Some (effectiveLoanAmount elv)) shouldIncludeSelling))
      periods.


(** ** Copies of the inputs with one field changed *)

Definition with_remainingLoanTerm (inputs : CalculatorInputs) (t : option nat)
    : CalculatorInputs :=
  {| scenario := scenario inputs; inflationRate := inflationRate inputs;
     investmentReturnRate := investmentReturnRate inputs;
     projectionYears := projectionYears inputs; purchasePrice := purchasePrice inputs;
     currentMarketValue := currentMarketValue inputs;
     annualInsurance := annualInsurance inputs; annualTaxes := annualTaxes inputs;
     annualIncome := annualIncome inputs; appreciationRate := appreciationRate inputs;
     loanAmount := loanAmount inputs; loanRate := loanRate inputs;
     loanTerm := loanTerm inputs; remainingLoanTerm := t;
     includeRefinance := includeRefinance inputs; payoffBalance := payoffBalance inputs;
     closingCosts := closingCosts inputs;
     mortgageInterestDeduction := mortgageInterestDeduction inputs;
     extraMonthlyPayment := extraMonthlyPayment inputs;
     extraUpfrontPayment := extraUpfrontPayment inputs;
     recalculatePayment := recalculatePayment inputs; rentDeposit := rentDeposit inputs;
     monthlyRent := monthlyRent inputs; annualRentCosts := annualRentCosts inputs;
     otherAnnualCosts := otherAnnualCosts inputs; includeSelling := includeSelling inputs;
     includeRentingSell := includeRentingSell inputs;
     agentCommission := agentCommission inputs; stagingCosts := stagingCosts inputs;
     taxFreeLimits := taxFreeLimits inputs; capitalGainsTax := capitalGainsTax inputs |}.

(** ** calculateRentingNetWorth *)

(** Months [i], ..., [i+fuel-1] of its loop: each month adds the month's
    savings and compounds.  A month past the end of either array reads
    [undefined], which makes [investmentValue] NaN. *)
Fixpoint renting_loop (monthlyBuyingCosts monthlyRentingCosts : list R)
    (monthlyInvestmentRate : R) (i fuel : nat) (investmentValue : num) : num :=
  match fuel with
  | O => investmentValue
  | S f =>
      let monthlySavings :=
        nsub (nth_error monthlyBuyingCosts i) (nth_error monthlyRentingCosts i) in
      let investmentValue := nadd investmentValue monthlySavings in
      let investmentValue := nmul investmentValue (Some (1 + monthlyInvestmentRate)) in
      renting_loop monthlyBuyingCosts monthlyRentingCosts monthlyInvestmentRate (S i) f
        investmentValue
  end.

Definition calculateRentingNetWorth (inputs : CalculatorInputs) (months : nat)
    (monthlyBuyingCosts monthlyRentingCosts : list R) : num :=
  let downpayment := purchasePrice inputs - loanAmount inputs in
  let investmentValue := downpayment - rentDeposit inputs in
  let monthlyInvestmentRate := investmentReturnRate inputs / 100 / 12 in
  let investmentValue :=
    renting_loop monthlyBuyingCosts monthlyRentingCosts monthlyInvestmentRate 0 months
      (Some investmentValue) in
  let recoverableDeposit := rentDeposit inputs * (75 / 100) in
  nadd investmentValue (Some recoverableDeposit).

(** ** calculate, buy_vs_rent: the comparison table *)

(** [for (i = 0; i < months; i++) cumulativeSavings += buying[i] - renting[i]]
    from month [i] on. *)
Fixpoint savings_loop (monthlyBuyingCosts monthlyRentingCosts : list R)
    (i fuel : nat) (cumulativeSavings : num) : num :=
  match fuel with
  | O => cumulativeSavings
  | S f =>
      savings_loop monthlyBuyingCosts monthlyRentingCosts (S i) f
        (nadd cumulativeSavings
           (nsub (nth_error monthlyBuyingCosts i) (nth_error monthlyRentingCosts i)))
  end.

Record ComparisonRow := {
  cmp_period : string;
  cmp_assetValue : num;
  cmp_buyingNetWorth : num;
  cmp_cumulativeSavings : num;
  cmp_marketReturn : num;
  cmp_rentingNetWorth : num;
  cmp_difference : num
}.

(** [Math.min(months - 1, arr.length - 1)], the index the tables read for a
    period of [months] months. *)
Definition month_index (months : nat) (arr : list R) : Z :=
  Z.min (Z.of_nat months - 1) (Z.of_nat (List.length arr) - 1).

(** The callback of [results.comparisonTable = periods.map(...)].  [elv] is
    [getEffectiveLoanValues(inputs)]: both the destructured
    [effectiveLoanAmount] of [calculate] and [loanValuesForComparison]. *)
Definition comparison_row (inputs : CalculatorInputs) (costs : MonthlyCosts)
    (elv : EffectiveLoanValues) (period : Period) : ComparisonRow :=
  let assetValue :=
    calculateAssetValue (purchasePrice inputs) (months period) (appreciationRate inputs) in
  let downpayment := purchasePrice inputs - loanAmount inputs in
  let loanBalance :=
    if (months period =? 0)%nat then Some (effectiveLoanAmount elv)
    else js_index (remainingLoanBalance costs)
           (month_index (months period) (remainingLoanBalance costs)) in
  let buyingNetWorth :=
    if includeSelling inputs then
      netProceeds (calculateSaleProceeds inputs (months period) (remainingLoanBalance costs)
                     (Some (effectiveLoanAmount elv)) true)
    else nsub assetValue loanBalance in
  let rentingNetWorth :=
    calculateRentingNetWorth inputs (months period) (monthlyBuyingCosts costs)
      (monthlyRentingCosts costs) in
  let cumulativeSavings :=
    savings_loop (monthlyBuyingCosts costs) (monthlyRentingCosts costs) 0 (months period)
      (Some (downpayment - rentDeposit inputs)) in
  let recoverableDeposit := rentDeposit inputs * (75 / 100) in
  let marketReturn := nsub (nsub rentingNetWorth cumulativeSavings) (Some recoverableDeposit) in
  {| cmp_period := String.append "NET " (label period);
     cmp_assetValue := assetValue;
     cmp_buyingNetWorth := buyingNetWorth;
     cmp_cumulativeSavings := cumulativeSavings;
     cmp_marketReturn := marketReturn;
     cmp_rentingNetWorth := rentingNetWorth;
     cmp_difference := nsub rentingNetWorth buyingNetWorth |}.

(** [results.comparisonTable], built in the buy_vs_rent branch. *)
Definition calculate_comparisonTable (inputs : CalculatorInputs) : list ComparisonRow :=
  let costs := populateMonthlyCosts inputs in
  let elv := getEffectiveLoanValues inputs in
  let periods := getPeriods (effectiveLoanTerm elv) (projectionYears inputs) in
  map (comparison_row inputs costs elv) periods.

(** ** calculate: the amortization table (buy_vs_rent and sell_vs_keep) *)

Record AmortizationRow := {
  am_period : string;
  principalPaid : num;
  interestPaid : num;
  taxDeduction : num;
  effectiveInterest : num;
  effectiveLoanPayment : num;
  loanBalance : num
}.

Definition amortization_row (costs : MonthlyCosts) (loanValues : EffectiveLoanValues)
    (taxRate : R) (period : Period) : AmortizationRow :=
  if (months period =? 0)%nat then
    {| am_period := String.append "LOAN " (label period);
       principalPaid := Some 0; interestPaid := Some 0; taxDeduction := Some 0;
       effectiveInterest := Some 0; effectiveLoanPayment := Some 0;
       loanBalance := Some (effectiveLoanAmount loanValues) |}
  else
    let monthIndex := month_index (months period) (remainingLoanBalance costs) in
    let principalPaid := js_index (cumulativePrincipalPaid costs) monthIndex in
    let interestPaid := js_index (cumulativeInterestPaid costs) monthIndex in
    let taxDeduction := nmul interestPaid (Some taxRate) in
    let effectiveInterest := nsub interestPaid taxDeduction in
    {| am_period := String.append "LOAN " (label period);
       principalPaid := principalPaid; interestPaid := interestPaid;
       taxDeduction := taxDeduction; effectiveInterest := effectiveInterest;
       effectiveLoanPayment := nadd principalPaid effectiveInterest;
       loanBalance := js_index (remainingLoanBalance costs) monthIndex |}.

(** [results.amortizationTable]: set in the buy_vs_rent and sell_vs_keep
    branches when [inputs.loanAmount > 0], left undefined ([None]) otherwise. *)
Definition calculate_amortizationTable (inputs : CalculatorInputs)
    : option (list AmortizationRow) :=
  let costs := populateMonthlyCosts inputs in
  let elv := getEffectiveLoanValues inputs in
  let periods := getPeriods (effectiveLoanTerm elv) (projectionYears inputs) in
  match scenario inputs with
  | payoff_vs_invest => None
  | _ =>
      if Rlt_dec 0 (loanAmount inputs) then
        let loanValues := getEffectiveLoanValues inputs in
        let taxRate := mortgageInterestDeduction inputs / 100 in
        Some (map (amortization_row costs loanValues taxRate) periods)
      else None
  end.

(** ** calculate, payoff_vs_invest: the INVEST and PAYOFF paths *)

Record InvestState := {
  investInvestment : R;
  investBalance : R;
  investTotalEffectivePayment : R;
  investTotalContributions : R
}.

Record PayoffState := {
  payoffBal : R;  (* the loop's [payoffBalance] *)
  payoffNetPosition : R;
  loanPaidOff : bool;
  payoffTotalPrincipal : R;
  payoffTotalInterest : R;
  payoffTotalEffectivePayment : R;
  payoffTotalContributions : R;
  payoffTotalReturns : R
}.

Section PayoffVsInvestLoops.
Variables (monthlyRate monthlyInvestmentRate extraPayment : R).

(** Month [i] of the INVEST loop: the loop variables afterwards and
    [investMonthlyEffectivePayment[i]]. *)
Definition invest_step (regularPayment : R) (loanTermMonths i : nat) (s : InvestState)
    : InvestState * R :=
  let paying :=
    if (i <? loanTermMonths)%nat then
      if Rlt_dec 0 (investBalance s) then true else false
    else false in
  let '(s1, monthlyEffectivePayment) :=
    if paying then
      let interestPayment := investBalance s * monthlyRate in
      let principalPayment := regularPayment - interestPayment in
      ({| investInvestment := investInvestment s + extraPayment;
          investBalance := Rmax 0 (investBalance s - principalPayment);
          investTotalEffectivePayment := investTotalEffectivePayment s + regularPayment;
          investTotalContributions := investTotalContributions s + extraPayment |},
       regularPayment)
    else
      ({| investInvestment := investInvestment s + extraPayment;
          investBalance := investBalance s;
          investTotalEffectivePayment := investTotalEffectivePayment s;
          investTotalContributions := investTotalContributions s + extraPayment |},
       0) in
  ({| investInvestment := investInvestment s1 * (1 + monthlyInvestmentRate);
      investBalance := investBalance s1;
      investTotalEffectivePayment := investTotalEffectivePayment s1;
      investTotalContributions := investTotalContributions s1 |},
   monthlyEffectivePayment).

Fixpoint invest_loop (regularPayment : R) (loanTermMonths i fuel : nat) (s : InvestState)
    : list (InvestState * R) :=
  match fuel with
  | O => []
  | S f =>
      let '(s', eff) := invest_step regularPayment loanTermMonths i s in
      (s', eff) :: invest_loop regularPayment loanTermMonths (S i) f s'
  end.

(** One month of the PAYOFF loop. *)
Definition payoff_step (payoffRegularPayment : R) (s : PayoffState) : PayoffState :=
  if (negb (loanPaidOff s) && (if Rlt_dec 0 (payoffBal s) then true else false))%bool then
    let interestPayment := payoffBal s * monthlyRate in
    let principalFromPayment := payoffRegularPayment - interestPayment in
    let desiredPrincipalPayment := principalFromPayment + extraPayment in
    let actualPrincipalPayment := Rmin desiredPrincipalPayment (payoffBal s) in
    let payoffPayment := interestPayment + actualPrincipalPayment in
    let balance := payoffBal s - actualPrincipalPayment in
    let '(balance, paidOff) :=
      if Rle_dec balance 0 then (0, true) else (balance, loanPaidOff s) in
    {| payoffBal := balance;
       payoffNetPosition := payoffNetPosition s;
       loanPaidOff := paidOff;
       payoffTotalPrincipal := payoffTotalPrincipal s + actualPrincipalPayment;
       payoffTotalInterest := payoffTotalInterest s + interestPayment;
       payoffTotalEffectivePayment := payoffTotalEffectivePayment s + payoffPayment;
       payoffTotalContributions := payoffTotalContributions s;
       payoffTotalReturns := payoffTotalReturns s |}
  else
    let contribution := payoffRegularPayment + extraPayment in
    let netPosition := payoffNetPosition s + contribution in
    let monthlyReturn := netPosition * monthlyInvestmentRate in
    {| payoffBal := payoffBal s;
       payoffNetPosition := netPosition + monthlyReturn;
       loanPaidOff := loanPaidOff s;
       payoffTotalPrincipal := payoffTotalPrincipal s;
       payoffTotalInterest := payoffTotalInterest s;
       payoffTotalEffectivePayment := payoffTotalEffectivePayment s;
       payoffTotalContributions := payoffTotalContributions s + contribution;
       payoffTotalReturns := payoffTotalReturns s + monthlyReturn |}.

(** The loop variables after each of [fuel] months. *)
Fixpoint payoff_loop (payoffRegularPayment : R) (fuel : nat) (s : PayoffState)
    : list PayoffState :=
  match fuel with
  | O => []
  | S f =>
      let s' := payoff_step payoffRegularPayment s in
      s' :: payoff_loop payoffRegularPayment f s'
  end.
End PayoffVsInvestLoops.

(** [x || 0] for an optional number. *)
Definition or_zero (o : option R) : R :=
  match o with Some v => v | None => 0 end.

Record PayoffVsInvest := {
  upfrontPrincipal : R;
  payoffStartingBalance : R;
  payoffRegularPayment : R;
  investLoanBalances : list R;
  investInvestmentValues : list R;
  investCumulativeEffectivePayment : list R;
  investCumulativeContributions : list R;
  investMonthlyEffectivePayment : list R;
  payoffLoanBalances : list R;
  payoffInvestmentValues : list R;
  payoffCumulativePrincipal : list R;
  payoffCumulativeInterest : list R;
  payoffCumulativeEffectivePayment : list R;
  payoffCumulativeContributions : list R;
  payoffCumulativeReturns : list R
}.

(** The arrays the payoff_vs_invest branch of [calculate] fills before it
    builds its three tables. *)
Definition calculate_payoffVsInvest (inputs : CalculatorInputs) : PayoffVsInvest :=
  let costs := populateMonthlyCosts inputs in
  let extraPayment := or_zero (extraMonthlyPayment inputs) in
  let extraUpfront := or_zero (extraUpfrontPayment inputs) in
  let monthlyRate := loanRate inputs / 100 / 12 in
  let monthlyInvestmentRate := investmentReturnRate inputs / 100 / 12 in
  let loanValues := getEffectiveLoanValues inputs in
  let regularPayment := monthlyLoanPayment loanValues in
  let loanTermMonths :=
    match remainingLoanTerm inputs with Some (S t) => S t | _ => loanTerm inputs end in
  let upfrontPrincipal := Rmin extraUpfront (effectiveLoanAmount loanValues) in
  let payoffStartingBalance := effectiveLoanAmount loanValues - upfrontPrincipal in
  let payoffRegularPayment :=
    if match recalculatePayment inputs with Some true => true | _ => false end then
      if Rlt_dec 0 extraUpfront then
        if Rlt_dec 0 payoffStartingBalance then
          calculateMonthlyPayment payoffStartingBalance monthlyRate loanTermMonths
        else regularPayment
      else regularPayment
    else regularPayment in
  let maxMonths := 360%nat in
  let investRows :=
    invest_loop monthlyRate monthlyInvestmentRate extraPayment regularPayment loanTermMonths
      0 maxMonths
      {| investInvestment := extraUpfront;
         investBalance := effectiveLoanAmount loanValues;
         investTotalEffectivePayment := 0;
         investTotalContributions := extraUpfront |} in
  let payoffRows :=
    payoff_loop monthlyRate monthlyInvestmentRate extraPayment payoffRegularPayment maxMonths
      {| payoffBal := payoffStartingBalance;
         payoffNetPosition := 0;
         loanPaidOff := if Rle_dec payoffStartingBalance 0 then true else false;
         payoffTotalPrincipal := upfrontPrincipal;
         payoffTotalInterest := 0;
         payoffTotalEffectivePayment := extraUpfront;
         payoffTotalContributions := 0;
         payoffTotalReturns := 0 |} in
  {| upfrontPrincipal := upfrontPrincipal;
     payoffStartingBalance := payoffStartingBalance;
     payoffRegularPayment := payoffRegularPayment;
     investLoanBalances := remainingLoanBalance costs;
     investInvestmentValues := map (fun r => investInvestment (fst r)) investRows;
     investCumulativeEffectivePayment :=
       map (fun r => investTotalEffectivePayment (fst r)) investRows;
     investCumulativeContributions := map (fun r => investTotalContributions (fst r)) investRows;
     investMonthlyEffectivePayment := map snd investRows;
     payoffLoanBalances := map payoffBal payoffRows;
     payoffInvestmentValues := map payoffNetPosition payoffRows;
     payoffCumulativePrincipal := map payoffTotalPrincipal payoffRows;
     payoffCumulativeInterest := map payoffTotalInterest payoffRows;
     payoffCumulativeEffectivePayment := map payoffTotalEffectivePayment payoffRows;
     payoffCumulativeContributions := map payoffTotalContributions payoffRows;
     payoffCumulativeReturns := map payoffTotalReturns payoffRows |}.

(** ** calculate, buy_vs_rent: the expenditure table *)

(** [for (i = 0; i < months; i++) total += arr[i]] from month [i] on. *)
Fixpoint sum_loop (arr : list R) (i fuel : nat) (total : num) : num :=
  match fuel with
  | O => total
  | S f => sum_loop arr (S i) f (nadd total (nth_error arr i))
  end.

(** [for (year = y; year < ...; year++) cumulativeCosts += (annualInsurance
    + annualTaxes - annualIncome) * (1 + inflationRate/100)^year], [n] times. *)
Fixpoint cost_years_loop (inputs : CalculatorInputs) (year n : nat) (cumulativeCosts : R) : R :=
  match n with
  | O => cumulativeCosts
  | S k =>
      let inflationFactor := (1 + inflationRate inputs / 100) ^ year in
      cost_years_loop inputs (S year) k
        (cumulativeCosts
         + (annualInsurance inputs + annualTaxes inputs - annualIncome inputs) * inflationFactor)
  end.

Record ExpenditureRow := {
  exp_period : string;
  exp_loanPayment : num;
  exp_taxDeduction : num;
  exp_effectiveLoanPayment : num;
  exp_costs : R;
  buyingExpenditure : num;
  rentingExpenditure : num;
  exp_difference : num
}.

(** The callback of [results.expenditureTable = periods.map((period, index)
    => ...)].  The loop [year < period.months / 12] divides exactly, so it
    runs ceil(months / 12) = (months + 11) / 12 times. *)
Definition expenditure_row (inputs : CalculatorInputs) (costs : MonthlyCosts)
    (amortizationTable : option (list AmortizationRow)) (index : nat) (period : Period)
    : ExpenditureRow :=
  let downpayment := purchasePrice inputs - loanAmount inputs in
  let buyingExpenditure :=
    sum_loop (monthlyBuyingCosts costs) 0 (months period) (Some downpayment) in
  let rentingExpenditure :=
    sum_loop (monthlyRentingCosts costs) 0 (months period) (Some (rentDeposit inputs)) in
  let amortRow :=
    match amortizationTable with Some rows => nth_error rows index | None => None end in
  let loanPayment :=
    match amortRow with
    | Some row => nadd (principalPaid row) (interestPaid row)
    | None => Some 0
    end in
  let taxDeduction :=
    match amortRow with Some row => taxDeduction row | None => Some 0 end in
  let effectiveLoanPayment :=
    match amortRow with Some row => effectiveLoanPayment row | None => Some 0 end in
  let cumulativeCosts := cost_years_loop inputs 0 ((months period + 11) / 12) 0 in
  {| exp_period := String.append "EXP " (label period);
     exp_loanPayment := loanPayment;
     exp_taxDeduction := taxDeduction;
     exp_effectiveLoanPayment := effectiveLoanPayment;
     exp_costs := cumulativeCosts;
     buyingExpenditure := buyingExpenditure;
     rentingExpenditure := rentingExpenditure;
     exp_difference := nsub buyingExpenditure rentingExpenditure |}.

(** [results.expenditureTable], built in the buy_vs_rent branch. *)
Definition calculate_expenditureTable (inputs : CalculatorInputs) : list ExpenditureRow :=
  let costs := populateMonthlyCosts inputs in
  let elv := getEffectiveLoanValues inputs in
  let periods := getPeriods (effectiveLoanTerm elv) (projectionYears inputs) in
  let amortizationTable := calculate_amortizationTable inputs in
  map (fun ip => expenditure_row inputs costs amortizationTable (fst ip) (snd ip))
      (combine (seq 0 (List.length periods)) periods).

(** ** calculate, payoff_vs_invest: the payoff amortization table *)

(** The callback of [results.payoffAmortizationTable = periods.map(...)]. *)
Definition payoff_amortization_row (pv : PayoffVsInvest) (extraUpfront : R)
    (period : Period) : AmortizationRow :=
  if (months period =? 0)%nat then
    {| am_period := String.append "PAYOFF " (label period);
       principalPaid := Some (upfrontPrincipal pv); interestPaid := Some 0;
       taxDeduction := Some 0; effectiveInterest := Some 0;
       effectiveLoanPayment := Some extraUpfront;
       loanBalance := Some (payoffStartingBalance pv) |}
  else
    let monthIndex := Z.min (Z.of_nat (months period) - 1) (360 - 1) in
    let principalPaid := js_index (payoffCumulativePrincipal pv) monthIndex in
    let interestPaid := js_index (payoffCumulativeInterest pv) monthIndex in
    {| am_period := String.append "PAYOFF " (label period);
       principalPaid := principalPaid; interestPaid := interestPaid;
       taxDeduction := Some 0; effectiveInterest := interestPaid;
       effectiveLoanPayment := js_index (payoffCumulativeEffectivePayment pv) monthIndex;
       loanBalance := js_index (payoffLoanBalances pv) monthIndex |}.

Definition calculate_payoffAmortizationTable (inputs : CalculatorInputs)
    : list AmortizationRow :=
  let elv := getEffectiveLoanValues inputs in
  let periods := getPeriods (effectiveLoanTerm elv) (projectionYears inputs) in
  map (payoff_amortization_row (calculate_payoffVsInvest inputs)
         (or_zero (extraUpfrontPayment inputs)))
      periods.

(** What the PAYOFF loop keeps true month after month: [E] is the loan
    amount, [K] the part of the upfront payment above it. *)
Definition payoff_invariant (E K : R) (s : PayoffState) : Prop :=
  0 <= payoffBal s /\
  payoffTotalPrincipal s + payoffBal s = E /\
  payoffNetPosition s = payoffTotalContributions s + payoffTotalReturns s /\
  payoffTotalEffectivePayment s = payoffTotalPrincipal s + payoffTotalInterest s + K /\
  (loanPaidOff s = true -> payoffBal s = 0) /\
  (0 < payoffBal s ->
   payoffNetPosition s = 0 /\ payoffTotalContributions s = 0 /\ payoffTotalReturns s = 0).

(** * Properties of the month loop *)

(** The loan variables of the loop. *)
Definition loan_part (s : CostState) : R * R * R :=
  (currentBalance s, totalPrincipalPaid s, totalInterestPaid s).

(** ** The five arrays of populateMonthlyCosts, month by month *)

Definition pmc_start (inputs : CalculatorInputs) : CostState :=
  {| currentRentingCost :=
       monthlyRent inputs + annualRentCosts inputs / 12 + otherAnnualCosts inputs / 12;
     currentRecurringExpenses :=
       (annualInsurance inputs + annualTaxes inputs) / 12 - annualIncome inputs / 12;
     currentBalance := effectiveLoanAmount (getEffectiveLoanValues inputs);
     totalPrincipalPaid := 0;
     totalInterestPaid := 0 |}.

Definition pmc_step (inputs : CalculatorInputs) : nat -> CostState -> CostState * CostRow :=
  month_step (inflationRate inputs) (loanRate inputs / 100 / 12)
    (mortgageInterestDeduction inputs / 100)
    (monthlyLoanPayment (getEffectiveLoanValues inputs))
    (effectiveLoanTerm (getEffectiveLoanValues inputs)).

Definition pmc_run (inputs : CalculatorInputs) (k : nat) : CostState :=
  run_months (inflationRate inputs) (loanRate inputs / 100 / 12)
    (mortgageInterestDeduction inputs / 100)
    (monthlyLoanPayment (getEffectiveLoanValues inputs))
    (effectiveLoanTerm (getEffectiveLoanValues inputs)) 0 k (pmc_start inputs).

(** What month [k] writes. *)
Definition pmc_row (inputs : CalculatorInputs) (k : nat) : CostRow :=
  snd (pmc_step inputs k (pmc_run inputs k)).

(** Inputs for concrete runs: everything not given is 0, empty or absent,
    with a single 0% appreciation rate and a single 0 tax-free limit. *)
Definition mk_inputs (scen : ScenarioType) (infl price amount rate : R) (term : nat)
    (rent commission : R) : CalculatorInputs :=
  {| scenario := scen; inflationRate := infl; investmentReturnRate := 0;
     projectionYears := 0; purchasePrice := price; currentMarketValue := None;
     annualInsurance := 0; annualTaxes := 0; annualIncome := 0;
     appreciationRate := [0]; loanAmount := amount; loanRate := rate;
     loanTerm := term; remainingLoanTerm := None; includeRefinance := None;
     payoffBalance := None; closingCosts := None; mortgageInterestDeduction := 0;
     extraMonthlyPayment := None; extraUpfrontPayment := None;
     recalculatePayment := None; rentDeposit := 0; monthlyRent := rent;
     annualRentCosts := 0; otherAnnualCosts := 0; includeSelling := false;
     includeRentingSell := None; agentCommission := commission; stagingCosts := 0;
     taxFreeLimits := [0]; capitalGainsTax := 0 |}.

Definition with_mortgageInterestDeduction (inputs : CalculatorInputs) (d : R)
    : CalculatorInputs :=
  {| scenario := scenario inputs; inflationRate := inflationRate inputs;
     investmentReturnRate := investmentReturnRate inputs;
     projectionYears := projectionYears inputs; purchasePrice := purchasePrice inputs;
     currentMarketValue := currentMarketValue inputs;
     annualInsurance := annualInsurance inputs; annualTaxes := annualTaxes inputs;
     annualIncome := annualIncome inputs; appreciationRate := appreciationRate inputs;
     loanAmount := loanAmount inputs; loanRate := loanRate inputs;
     loanTerm := loanTerm inputs; remainingLoanTerm := remainingLoanTerm inputs;
     includeRefinance := includeRefinance inputs; payoffBalance := payoffBalance inputs;
     closingCosts := closingCosts inputs; mortgageInterestDeduction := d;
     extraMonthlyPayment := extraMonthlyPayment inputs;
     extraUpfrontPayment := extraUpfrontPayment inputs;
     recalculatePayment := recalculatePayment inputs; rentDeposit := rentDeposit inputs;
     monthlyRent := monthlyRent inputs; annualRentCosts := annualRentCosts inputs;
     otherAnnualCosts := otherAnnualCosts inputs; includeSelling := includeSelling inputs;
     includeRentingSell := includeRentingSell inputs;
     agentCommission := agentCommission inputs; stagingCosts := stagingCosts inputs;
     taxFreeLimits := taxFreeLimits inputs; capitalGainsTax := capitalGainsTax inputs |}.

(** ** Exact rational evaluation of the amortization

    On rational inputs the payment formula and the balance recurrence stay
    rational; their [Q] versions compute, and [Q2R] carries the results to
    the real-valued model. *)

Fixpoint qpow (x : Q) (n : nat) : Q :=
  match n with O => 1%Q | S k => (x * qpow x k)%Q end.

Definition calculateMonthlyPaymentQ (principal monthlyRate : Q) (months : nat) : Q :=
  if Qeq_bool monthlyRate 0 then (principal / inject_Z (Z.of_nat months))%Q
  else
    let factor := qpow (1 + monthlyRate) months in
    ((principal * (monthlyRate * factor)) / (factor - 1))%Q.

Fixpoint amortizeQ (payment monthlyRate : Q) (n : nat) (balance : Q) : Q :=
  match n with
  | O => balance
  | S k =>
      let interestPayment := (balance * monthlyRate)%Q in
      let principalPayment := (payment - interestPayment)%Q in
      amortizeQ payment monthlyRate k (Qred (balance - principalPayment))
  end.

(** The end-to-end example: a 400,000 loan at 6.5% a year over 360 months. *)
Definition example_loan_inputs : CalculatorInputs :=
  mk_inputs buy_vs_rent 0 500000 400000 (13 / 2) 360 0 0.

Definition example_paymentQ : Q := calculateMonthlyPaymentQ (400000 # 1) (13 # 2400) 360.

(** ** Example inputs *)

Definition resumed_example : CalculatorInputs :=
  with_remainingLoanTerm (mk_inputs buy_vs_rent 0 100000 80000 6 24 0 0) (Some 12%nat).

Definition payoff_example : CalculatorInputs :=
  mk_inputs payoff_vs_invest 0 100000 0 0 360 0 0.

Section MonthLoopFacts.
Variables (inflationRate monthlyRate taxDeductionRate monthlyLoanPayment : R).
Variable effectiveLoanTerm : nat.

Local Abbreviation step := (month_step inflationRate monthlyRate taxDeductionRate
                          monthlyLoanPayment effectiveLoanTerm).
Local Abbreviation loop := (month_loop inflationRate monthlyRate taxDeductionRate
                          monthlyLoanPayment effectiveLoanTerm).
Local Abbreviation run := (run_months inflationRate monthlyRate taxDeductionRate
                         monthlyLoanPayment effectiveLoanTerm).

Lemma month_loop_length : forall fuel i s, List.length (loop i fuel s) = fuel.
Proof.
  induction fuel as [|f IH]; intros i s; simpl; [reflexivity|].
  destruct (step i s) as [s' row]; simpl; rewrite IH; reflexivity.
Qed.

Lemma month_loop_nth : forall fuel i s k, (k < fuel)%nat ->
  nth_error (loop i fuel s) k = Some (snd (step (i + k) (run i k s))).
Proof.
  induction fuel as [|f IH]; intros i s k Hk; [lia|].
  simpl. destruct (step i s) as [s' row] eqn:E.
  destruct k as [|k]; simpl.
  - rewrite Nat.add_0_r, E. reflexivity.
  - rewrite IH by lia. replace (i + S k)%nat with (S i + k)%nat by lia.
    simpl. rewrite E. reflexivity.
Qed.

Lemma run_months_snoc : forall n i s,
  run i (S n) s = fst (step (i + n) (run i n s)).
Proof.
  induction n as [|n IH]; intros i s.
  - simpl. rewrite Nat.add_0_r. reflexivity.
  - change (run i (S (S n)) s) with (run (S i) (S n) (fst (step i s))).
    rewrite IH. simpl. do 3 f_equal. lia.
Qed.

Lemma inflate_loan_part : forall i s, loan_part (inflate inflationRate i s) = loan_part s.
Proof.
  intros i s. unfold inflate. destruct (_ && _)%bool; reflexivity.
Qed.

Lemma step_after_term : forall i s, (effectiveLoanTerm <= i)%nat ->
  loan_part (fst (step i s)) = loan_part s.
Proof.
  intros i s Hi. unfold month_step.
  replace (i <? effectiveLoanTerm)%nat with false by (symmetry; apply Nat.ltb_ge; lia).
  apply inflate_loan_part.
Qed.

Lemma inflate_balance : forall i s,
  currentBalance (inflate inflationRate i s) = currentBalance s /\
  totalPrincipalPaid (inflate inflationRate i s) = totalPrincipalPaid s /\
  totalInterestPaid (inflate inflationRate i s) = totalInterestPaid s.
Proof.
  intros i s. unfold inflate. destruct (_ && _)%bool; simpl; auto.
Qed.

Lemma run_loan_part_after_term : forall k s,
  loan_part (run 0 k s) = loan_part (run 0 (Nat.min k effectiveLoanTerm) s).
Proof.
  induction k as [|k IH]; intros s; [reflexivity|].
  destruct (Nat.le_gt_cases (S k) effectiveLoanTerm) as [Hle|Hgt].
  - rewrite Nat.min_l by lia. reflexivity.
  - rewrite Nat.min_r by lia. rewrite run_months_snoc, step_after_term by lia.
    rewrite IH, Nat.min_r by lia. reflexivity.
Qed.

(** Within the loan term each month pays [monthlyLoanPayment] against the
    balance; principal paid plus balance stays constant throughout. *)
Lemma run_balance : forall k s, (k <= effectiveLoanTerm)%nat ->
  currentBalance (run 0 k s)
    = amortize monthlyLoanPayment monthlyRate k (currentBalance s).
Proof.
  induction k as [|k IH]; intros s Hk; [reflexivity|].
  rewrite run_months_snoc. simpl Nat.add. unfold month_step.
  replace (k <? effectiveLoanTerm)%nat with true by (symmetry; apply Nat.ltb_lt; lia).
  simpl. destruct (inflate_balance k (run 0 k s)) as [-> _].
  rewrite IH by lia. clear IH Hk.
  generalize (currentBalance s). induction k as [|k IHk]; intro b; simpl; [reflexivity|].
  apply IHk.
Qed.

Lemma run_principal_plus_balance : forall k s,
  currentBalance (run 0 k s) + totalPrincipalPaid (run 0 k s)
    = currentBalance s + totalPrincipalPaid s.
Proof.
  induction k as [|k IH]; intros s; [reflexivity|].
  rewrite run_months_snoc. simpl Nat.add. unfold month_step.
  destruct (inflate_balance k (run 0 k s)) as [Hb [Hp Hi]].
  destruct (k <? effectiveLoanTerm)%nat; simpl.
  - rewrite Hb, Hp, <- (IH s). ring.
  - rewrite Hb, Hp, <- (IH s). reflexivity.
Qed.
End MonthLoopFacts.

Lemma div12_succ : forall k,
  ((S k mod 12 = 0)%nat -> (S k / 12 = S (k / 12))%nat) /\
  ((S k mod 12 <> 0)%nat -> (S k / 12 = k / 12)%nat).
Proof.
  intro k.
  pose proof (Nat.div_mod_eq k 12). pose proof (Nat.div_mod_eq (S k) 12).
  pose proof (Nat.mod_upper_bound k 12 ltac:(lia)).
  pose proof (Nat.mod_upper_bound (S k) 12 ltac:(lia)).
  split; intro; lia.
Qed.

Section InflationFacts.
Variables (inflationRate monthlyRate taxDeductionRate monthlyLoanPayment : R).
Variable effectiveLoanTerm : nat.

Local Abbreviation step := (month_step inflationRate monthlyRate taxDeductionRate
                              monthlyLoanPayment effectiveLoanTerm).
Local Abbreviation run := (run_months inflationRate monthlyRate taxDeductionRate
                             monthlyLoanPayment effectiveLoanTerm).

Lemma step_costs : forall i s,
  currentRentingCost (fst (step i s)) = currentRentingCost (inflate inflationRate i s) /\
  currentRecurringExpenses (fst (step i s))
    = currentRecurringExpenses (inflate inflationRate i s).
Proof.
  intros i s. unfold month_step. destruct (i <? effectiveLoanTerm)%nat; simpl; auto.
Qed.

(** At month [k] both running costs have been raised [k / 12] times. *)
Lemma inflated_costs : forall k s,
  currentRentingCost (inflate inflationRate k (run 0 k s))
    = currentRentingCost s * (1 + inflationRate / 100) ^ (k / 12) /\
  currentRecurringExpenses (inflate inflationRate k (run 0 k s))
    = currentRecurringExpenses s * (1 + inflationRate / 100) ^ (k / 12).
Proof.
  induction k as [|k IH]; intros s.
  - simpl. unfold inflate. simpl. split; ring.
  - rewrite run_months_snoc. simpl Nat.add.
    destruct (step_costs k (run 0 k s)) as [Hr He].
    destruct (IH s) as [IHr IHe].
    destruct (div12_succ k) as [Hz Hnz].
    remember (fst (step k (run 0 k s))) as y eqn:Ey.
    unfold inflate.
    destruct (Nat.eq_dec (S k mod 12) 0) as [E|E].
    + rewrite (Hz E), (proj2 (Nat.eqb_eq _ _) E).
      cbn [andb currentRentingCost currentRecurringExpenses Nat.ltb Nat.leb pow].
      rewrite Hr, He, IHr, IHe. split; ring.
    + rewrite (Hnz E), (proj2 (Nat.eqb_neq _ _) E), andb_false_r.
      rewrite Hr, He, IHr, IHe. split; reflexivity.
Qed.

Lemma row_renting : forall k s,
  rentingCost (snd (step k (run 0 k s)))
    = currentRentingCost s * (1 + inflationRate / 100) ^ (k / 12).
Proof.
  intros k s. rewrite <- (proj1 (inflated_costs k s)).
  unfold month_step at 1. destruct (k <? effectiveLoanTerm)%nat; reflexivity.
Qed.
End InflationFacts.

Lemma populateMonthlyCosts_rows : forall inputs,
  let rows := month_loop (inflationRate inputs) (loanRate inputs / 100 / 12)
                (mortgageInterestDeduction inputs / 100)
                (monthlyLoanPayment (getEffectiveLoanValues inputs))
                (effectiveLoanTerm (getEffectiveLoanValues inputs)) 0 360 (pmc_start inputs) in
  populateMonthlyCosts inputs =
  {| monthlyBuyingCosts := map buyingCost rows;
     monthlyRentingCosts := map rentingCost rows;
     remainingLoanBalance := map loanBalanceAt rows;
     cumulativePrincipalPaid := map principalToDate rows;
     cumulativeInterestPaid := map interestToDate rows |}.
Proof. intros inputs. reflexivity. Qed.

Lemma populateMonthlyCosts_nth : forall inputs k, (k < 360)%nat ->
  let costs := populateMonthlyCosts inputs in
  nth_error (monthlyBuyingCosts costs) k = Some (buyingCost (pmc_row inputs k)) /\
  nth_error (monthlyRentingCosts costs) k = Some (rentingCost (pmc_row inputs k)) /\
  nth_error (remainingLoanBalance costs) k = Some (loanBalanceAt (pmc_row inputs k)) /\
  nth_error (cumulativePrincipalPaid costs) k = Some (principalToDate (pmc_row inputs k)) /\
  nth_error (cumulativeInterestPaid costs) k = Some (interestToDate (pmc_row inputs k)).
Proof.
  intros inputs k Hk costs. subst costs. rewrite populateMonthlyCosts_rows.
  cbv zeta. cbn [monthlyBuyingCosts monthlyRentingCosts remainingLoanBalance
                 cumulativePrincipalPaid cumulativeInterestPaid].
  rewrite !nth_error_map, month_loop_nth by exact Hk.
  repeat split; reflexivity.
Qed.

Lemma populateMonthlyCosts_length : forall inputs,
  let costs := populateMonthlyCosts inputs in
  List.length (monthlyBuyingCosts costs) = 360%nat /\
  List.length (monthlyRentingCosts costs) = 360%nat /\
  List.length (remainingLoanBalance costs) = 360%nat /\
  List.length (cumulativePrincipalPaid costs) = 360%nat /\
  List.length (cumulativeInterestPaid costs) = 360%nat.
Proof.
  intros inputs costs. subst costs. rewrite populateMonthlyCosts_rows.
  cbv zeta. cbn [monthlyBuyingCosts monthlyRentingCosts remainingLoanBalance
                 cumulativePrincipalPaid cumulativeInterestPaid].
  rewrite !length_map, month_loop_length. repeat split; reflexivity.
Qed.

(** ** Amortization *)

Lemma amortize_snoc : forall P r n b,
  amortize P r (S n) b = amortize P r n b - (P - amortize P r n b * r).
Proof.
  intros P r n. induction n as [|n IH]; intro b; [reflexivity|].
  change (amortize P r (S (S n)) b) with (amortize P r (S n) (b - (P - b * r))).
  rewrite IH. reflexivity.
Qed.

(** The balance after [k] payments of the level payment, in closed form. *)
Lemma amortize_closed_form : forall B r n k, r <> 0 -> (1 + r) ^ n <> 1 ->
  amortize (calculateMonthlyPayment B r n) r k B
    = B * ((1 + r) ^ n - (1 + r) ^ k) / ((1 + r) ^ n - 1).
Proof.
  intros B r n k Hr Hf.
  assert (Hd : (1 + r) ^ n - 1 <> 0) by lra.
  unfold calculateMonthlyPayment. destruct (Req_EM_T r 0) as [E|_]; [contradiction|].
  induction k as [|k IH].
  - simpl. field. exact Hd.
  - rewrite amortize_snoc, IH. simpl pow. field. exact Hd.
Qed.

Lemma amortize_zero_rate : forall P k b, amortize P 0 k b = b - INR k * P.
Proof.
  intros P k. induction k as [|k IH]; intro b.
  - simpl. ring.
  - rewrite amortize_snoc, IH, S_INR. ring.
Qed.

(** After [n] payments of [calculateMonthlyPayment B r n] nothing is left. *)
Lemma amortize_closes : forall B r n, (1 <= n)%nat -> (r = 0 \/ (1 + r) ^ n <> 1) ->
  amortize (calculateMonthlyPayment B r n) r n B = 0.
Proof.
  intros B r n Hn Hden.
  destruct (Req_EM_T r 0) as [E|E].
  - subst r. rewrite amortize_zero_rate. unfold calculateMonthlyPayment.
    destruct (Req_EM_T 0 0) as [_|C]; [|contradiction].
    assert (INR n <> 0) by (apply not_0_INR; lia).
    field. assumption.
  - destruct Hden as [C|Hf]; [contradiction|].
    rewrite amortize_closed_form by assumption. unfold Rdiv.
    rewrite Rminus_diag. ring.
Qed.

(** Month [k] inside the loan term: the balance after [k+1] payments, and
    the principal paid so far is what left the balance. *)
Lemma pmc_row_in_term : forall inputs k,
  let elv := getEffectiveLoanValues inputs in
  (k < effectiveLoanTerm elv)%nat ->
  loanBalanceAt (pmc_row inputs k)
    = amortize (monthlyLoanPayment elv) (loanRate inputs / 100 / 12) (S k)
        (effectiveLoanAmount elv) /\
  principalToDate (pmc_row inputs k)
    = effectiveLoanAmount elv - loanBalanceAt (pmc_row inputs k).
Proof.
  intros inputs k elv Hk.
  assert (Hrow : loanBalanceAt (pmc_row inputs k) = currentBalance (pmc_run inputs (S k)) /\
                 principalToDate (pmc_row inputs k) = totalPrincipalPaid (pmc_run inputs (S k))).
  { unfold pmc_row, pmc_run, pmc_step. rewrite run_months_snoc. simpl Nat.add.
    unfold month_step. fold elv.
    replace (k <? effectiveLoanTerm elv)%nat with true by (symmetry; apply Nat.ltb_lt; exact Hk).
    split; reflexivity. }
  destruct Hrow as [Hb Hp].
  pose proof (run_principal_plus_balance (inflationRate inputs) (loanRate inputs / 100 / 12)
                (mortgageInterestDeduction inputs / 100) (monthlyLoanPayment elv)
                (effectiveLoanTerm elv) (S k) (pmc_start inputs)) as Hinv.
  assert (Hs : currentBalance (pmc_start inputs) = effectiveLoanAmount elv /\
                totalPrincipalPaid (pmc_start inputs) = 0) by (split; reflexivity).
  unfold pmc_run in Hb, Hp. fold elv in Hb, Hp.
  split.
  - rewrite Hb, run_balance by lia. rewrite (proj1 Hs). reflexivity.
  - rewrite Hp, Hb. destruct Hs as [Hs1 Hs2]. rewrite Hs1, Hs2 in Hinv. lra.
Qed.

Lemma getEffectiveLoanValues_plain : forall inputs,
  0 < loanAmount inputs ->
  includeRefinance inputs <> Some true ->
  (forall t, remainingLoanTerm inputs = Some t -> (loanTerm inputs <= t)%nat) ->
  getEffectiveLoanValues inputs =
  {| effectiveLoanAmount := loanAmount inputs;
     effectiveLoanTerm := loanTerm inputs;
     monthlyLoanPayment :=
       calculateMonthlyPayment (loanAmount inputs) (loanRate inputs / 100 / 12) (loanTerm inputs);
     refinanceCashOut := 0 |}.
Proof.
  intros inputs Hamt Href Hrem. unfold getEffectiveLoanValues.
  destruct (Rle_dec (loanAmount inputs) 0) as [C|_]; [lra|].
  replace (match includeRefinance inputs with Some true => true | _ => false end) with false
    by (destruct (includeRefinance inputs) as [[|]|]; congruence).
  destruct (remainingLoanTerm inputs) as [t|] eqn:Et.
  - rewrite (proj2 (Nat.leb_le _ _) (Hrem t eq_refl)). reflexivity.
  - rewrite Nat.leb_refl. reflexivity.
Qed.

Lemma calculateAssetValue_one_year :
  calculateAssetValue 100 12 [10] = Some (100 * (1 + 10 / 100)).
Proof. reflexivity. Qed.

(** C1: for a loan of 1..360 whole months with no refinance and no shortened
    remaining term, and a non-degenerate amortization denominator, the level
    payment pays the loan off exactly: the balance recorded at the last loan
    month is 0 and the principal paid by then is the whole loan. *)
Theorem amortization_closure : forall inputs,
  0 < loanAmount inputs ->
  includeRefinance inputs <> Some true ->
  (forall t, remainingLoanTerm inputs = Some t -> (loanTerm inputs <= t)%nat) ->
  (1 <= loanTerm inputs <= 360)%nat ->
  (loanRate inputs / 100 / 12 = 0 \/ (1 + loanRate inputs / 100 / 12) ^ loanTerm inputs <> 1) ->
  let elv := getEffectiveLoanValues inputs in
  let costs := populateMonthlyCosts inputs in
  effectiveLoanAmount elv = loanAmount inputs /\
  effectiveLoanTerm elv = loanTerm inputs /\
  nth_error (remainingLoanBalance costs) (effectiveLoanTerm elv - 1) = Some 0 /\
  nth_error (cumulativePrincipalPaid costs) (effectiveLoanTerm elv - 1)
    = Some (effectiveLoanAmount elv).
Proof.
  intros inputs Hamt Href Hrem Hterm Hden elv costs.
  assert (Helv := getEffectiveLoanValues_plain inputs Hamt Href Hrem). fold elv in Helv.
  assert (Ha : effectiveLoanAmount elv = loanAmount inputs) by (rewrite Helv; reflexivity).
  assert (Ht : effectiveLoanTerm elv = loanTerm inputs) by (rewrite Helv; reflexivity).
  assert (Hp : monthlyLoanPayment elv
               = calculateMonthlyPayment (loanAmount inputs) (loanRate inputs / 100 / 12)
                   (loanTerm inputs)) by (rewrite Helv; reflexivity).
  destruct (populateMonthlyCosts_nth inputs (effectiveLoanTerm elv - 1) ltac:(lia))
    as [_ [_ [Hb [Hc _]]]].
  destruct (pmc_row_in_term inputs (effectiveLoanTerm elv - 1) ltac:(fold elv; lia))
    as [Hbal Hprin].
  fold elv in Hbal, Hprin.
  replace (S (effectiveLoanTerm elv - 1)) with (loanTerm inputs) in Hbal by lia.
  rewrite Hp, Ha, amortize_closes in Hbal by (assumption || lia).
  repeat split; try assumption.
  - subst costs. rewrite Hb, Hbal. reflexivity.
  - subst costs. rewrite Hc, Hprin, Hbal. f_equal. ring.
Qed.

Lemma amortization_closure_witness :
  let inputs := mk_inputs buy_vs_rent 0 1200 1000 0 12 0 0 in
  let elv := getEffectiveLoanValues inputs in
  let costs := populateMonthlyCosts inputs in
  effectiveLoanAmount elv = loanAmount inputs /\
  effectiveLoanTerm elv = loanTerm inputs /\
  nth_error (remainingLoanBalance costs) (effectiveLoanTerm elv - 1) = Some 0 /\
  nth_error (cumulativePrincipalPaid costs) (effectiveLoanTerm elv - 1)
    = Some (effectiveLoanAmount elv).
Proof.
  apply (amortization_closure (mk_inputs buy_vs_rent 0 1200 1000 0 12 0 0)); simpl.
  - lra.
  - discriminate.
  - intros t Ht. discriminate.
  - lia.
  - left. lra.
Defined.

(** C1 fails for a 40-year loan: the month arrays stop at 360 months, so
    [remainingLoanBalance[479]] does not exist. *)
Lemma amortization_closure_counterexample :
  let inputs := mk_inputs buy_vs_rent 0 1200 1000 0 480 0 0 in
  effectiveLoanTerm (getEffectiveLoanValues inputs) = 480%nat /\
  nth_error (remainingLoanBalance (populateMonthlyCosts inputs)) (480 - 1) = None /\
  nth_error (cumulativePrincipalPaid (populateMonthlyCosts inputs)) (480 - 1) = None.
Proof.
  intro inputs.
  rewrite getEffectiveLoanValues_plain by (simpl; (lra || discriminate || congruence)).
  destruct (populateMonthlyCosts_length inputs) as [_ [_ [Hb [Hc _]]]].
  split; [reflexivity|]. split; apply nth_error_None; lia.
Qed.

(** ** After the loan term *)

Lemma pmc_row_after_term : forall inputs i,
  (effectiveLoanTerm (getEffectiveLoanValues inputs) <= i)%nat ->
  let T := effectiveLoanTerm (getEffectiveLoanValues inputs) in
  loanBalanceAt (pmc_row inputs i) = 0 /\
  principalToDate (pmc_row inputs i) = totalPrincipalPaid (pmc_run inputs T) /\
  interestToDate (pmc_row inputs i) = totalInterestPaid (pmc_run inputs T).
Proof.
  intros inputs i Hi T.
  pose proof (run_loan_part_after_term (inflationRate inputs) (loanRate inputs / 100 / 12)
                (mortgageInterestDeduction inputs / 100)
                (monthlyLoanPayment (getEffectiveLoanValues inputs))
                (effectiveLoanTerm (getEffectiveLoanValues inputs)) i (pmc_start inputs)) as Hl.
  rewrite Nat.min_r in Hl by exact Hi.
  unfold pmc_row, pmc_step. unfold month_step.
  replace (i <? effectiveLoanTerm (getEffectiveLoanValues inputs))%nat with false
    by (symmetry; apply Nat.ltb_ge; exact Hi).
  cbn [snd loanBalanceAt principalToDate interestToDate].
  destruct (inflate_balance (inflationRate inputs) i (pmc_run inputs i)) as [_ [Hp Hi']].
  rewrite Hp, Hi'. unfold pmc_run, loan_part in *. injection Hl as _ Hp2 Hi2.
  subst T. split; [reflexivity|]. split; assumption.
Qed.

Lemma pmc_row_last_in_term : forall inputs t,
  effectiveLoanTerm (getEffectiveLoanValues inputs) = S t ->
  principalToDate (pmc_row inputs t) = totalPrincipalPaid (pmc_run inputs (S t)) /\
  interestToDate (pmc_row inputs t) = totalInterestPaid (pmc_run inputs (S t)).
Proof.
  intros inputs t Ht. unfold pmc_row, pmc_run, pmc_step.
  rewrite run_months_snoc. simpl Nat.add. unfold month_step.
  rewrite Ht. replace (t <? S t)%nat with true by (symmetry; apply Nat.ltb_lt; lia).
  split; reflexivity.
Qed.

(** C10: populateMonthlyCosts always returns five arrays of 360 entries, and
    from month effectiveLoanTerm on the remaining balance is exactly 0 while
    cumulative principal and interest stay at their values of the last loan
    month (0 when there is no loan month). *)
Theorem post_loan_term_quiescence : forall inputs,
  let T := effectiveLoanTerm (getEffectiveLoanValues inputs) in
  let costs := populateMonthlyCosts inputs in
  List.length (monthlyBuyingCosts costs) = 360%nat /\
  List.length (monthlyRentingCosts costs) = 360%nat /\
  List.length (remainingLoanBalance costs) = 360%nat /\
  List.length (cumulativePrincipalPaid costs) = 360%nat /\
  List.length (cumulativeInterestPaid costs) = 360%nat /\
  forall i, (T <= i < 360)%nat ->
  nth_error (remainingLoanBalance costs) i = Some 0 /\
  nth_error (cumulativePrincipalPaid costs) i
    = match T with O => Some 0 | S t => nth_error (cumulativePrincipalPaid costs) t end /\
  nth_error (cumulativeInterestPaid costs) i
    = match T with O => Some 0 | S t => nth_error (cumulativeInterestPaid costs) t end.
Proof.
  intros inputs T costs.
  destruct (populateMonthlyCosts_length inputs) as [L1 [L2 [L3 [L4 L5]]]].
  do 5 (split; [assumption|]).
  intros i Hi.
  destruct (populateMonthlyCosts_nth inputs i ltac:(lia)) as [_ [_ [Hb [Hp Hn]]]].
  destruct (pmc_row_after_term inputs i ltac:(subst T; lia)) as [Rb [Rp Rn]].
  subst costs. rewrite Hb, Hp, Hn, Rb, Rp, Rn. split; [reflexivity|].
  fold T. destruct T as [|t] eqn:ET.
  - split; reflexivity.
  - destruct (populateMonthlyCosts_nth inputs t ltac:(lia)) as [_ [_ [_ [Hp' Hn']]]].
    destruct (pmc_row_last_in_term inputs t ET) as [Lp Ln].
    rewrite Hp', Hn', Lp, Ln. split; reflexivity.
Qed.

Lemma post_loan_term_quiescence_witness :
  let inputs := mk_inputs buy_vs_rent 0 1200 1000 0 12 0 0 in
  let T := effectiveLoanTerm (getEffectiveLoanValues inputs) in
  let costs := populateMonthlyCosts inputs in
  List.length (remainingLoanBalance costs) = 360%nat /\
  (T <= 100 < 360)%nat /\
  nth_error (remainingLoanBalance costs) 100 = Some 0 /\
  nth_error (cumulativePrincipalPaid costs) 100
    = match T with O => Some 0 | S t => nth_error (cumulativePrincipalPaid costs) t end.
Proof.
  intros inputs T costs.
  assert (HT : (T <= 100 < 360)%nat).
  { subst T. rewrite getEffectiveLoanValues_plain by (simpl; (lra || discriminate || congruence)).
    simpl. lia. }
  destruct (post_loan_term_quiescence inputs) as (_ & _ & L & _ & _ & Q).
  destruct (Q 100%nat HT) as (Hb & Hp & _).
  split; [exact L|]. split; [exact HT|]. split; assumption.
Defined.

(** ** The mortgage interest deduction *)

Lemma month_step_deduction : forall infl r td1 td2 P T i s,
  fst (month_step infl r td1 P T i s) = fst (month_step infl r td2 P T i s) /\
  loanBalanceAt (snd (month_step infl r td1 P T i s))
    = loanBalanceAt (snd (month_step infl r td2 P T i s)) /\
  principalToDate (snd (month_step infl r td1 P T i s))
    = principalToDate (snd (month_step infl r td2 P T i s)) /\
  interestToDate (snd (month_step infl r td1 P T i s))
    = interestToDate (snd (month_step infl r td2 P T i s)).
Proof.
  intros. unfold month_step. destruct (i <? T)%nat; repeat split.
Qed.

Lemma month_loop_deduction : forall infl r td1 td2 P T n i s,
  let rows1 := month_loop infl r td1 P T i n s in
  let rows2 := month_loop infl r td2 P T i n s in
  map loanBalanceAt rows1 = map loanBalanceAt rows2 /\
  map principalToDate rows1 = map principalToDate rows2 /\
  map interestToDate rows1 = map interestToDate rows2.
Proof.
  intros infl r td1 td2 P T n. induction n as [|n IH]; intros i s rows1 rows2.
  - repeat split.
  - subst rows1 rows2. simpl.
    destruct (month_step_deduction infl r td1 td2 P T i s) as [Hs [Hb [Hp Hi]]].
    destruct (month_step infl r td1 P T i s) as [s1 row1].
    destruct (month_step infl r td2 P T i s) as [s2 row2].
    simpl in Hs, Hb, Hp, Hi. subst s2.
    destruct (IH (S i) s1) as [IHb [IHp IHi]].
    simpl. rewrite Hb, Hp, Hi, IHb, IHp, IHi. repeat split.
Qed.

(** Month [k] inside the loan term reads the loop variables after [k] months
    and leaves them as they are after [k+1]. *)
Lemma pmc_row_in_term_state : forall inputs k,
  (k < effectiveLoanTerm (getEffectiveLoanValues inputs))%nat ->
  loanBalanceAt (pmc_row inputs k) = currentBalance (pmc_run inputs (S k)) /\
  principalToDate (pmc_row inputs k) = totalPrincipalPaid (pmc_run inputs (S k)) /\
  interestToDate (pmc_row inputs k) = totalInterestPaid (pmc_run inputs (S k)).
Proof.
  intros inputs k Hk. unfold pmc_row, pmc_run, pmc_step. rewrite run_months_snoc.
  simpl Nat.add. unfold month_step.
  replace (k <? effectiveLoanTerm (getEffectiveLoanValues inputs))%nat with true
    by (symmetry; apply Nat.ltb_lt; exact Hk).
  repeat split.
Qed.

Lemma pmc_row_loan_month : forall inputs i,
  let elv := getEffectiveLoanValues inputs in
  (i < effectiveLoanTerm elv)%nat ->
  let cb := currentBalance (pmc_run inputs i) in
  let interestPayment := cb * (loanRate inputs / 100 / 12) in
  buyingCost (pmc_row inputs i)
    = monthlyLoanPayment elv - interestPayment
      + interestPayment * (1 - mortgageInterestDeduction inputs / 100)
      + currentRecurringExpenses (inflate (inflationRate inputs) i (pmc_run inputs i)) /\
  interestToDate (pmc_row inputs i) = totalInterestPaid (pmc_run inputs i) + interestPayment.
Proof.
  intros inputs i elv Hi cb interestPayment.
  destruct (inflate_balance (inflationRate inputs) i (pmc_run inputs i)) as [Hb [_ Hn]].
  unfold pmc_row, pmc_step. unfold month_step. fold elv.
  replace (i <? effectiveLoanTerm elv)%nat with true by (symmetry; apply Nat.ltb_lt; exact Hi).
  cbn [snd buyingCost interestToDate]. rewrite Hb, Hn. split; reflexivity.
Qed.

Lemma pmc_start_recurring : forall inputs,
  currentRecurringExpenses (pmc_start inputs)
    = (annualInsurance inputs + annualTaxes inputs) / 12 - annualIncome inputs / 12.
Proof. reflexivity. Qed.

(** C9: the mortgage interest deduction does not touch the loan arrays
    (balance, cumulative principal, cumulative nominal interest), and inside
    the loan term month [i] charges principal + interest*(1 - rate) + the
    inflated recurring expenses, where the interest is the previous balance
    times the monthly rate and is tracked undeducted. *)
Theorem deduction_noninterference : forall inputs d,
  let elv := getEffectiveLoanValues inputs in
  let costs := populateMonthlyCosts inputs in
  let costs' := populateMonthlyCosts (with_mortgageInterestDeduction inputs d) in
  remainingLoanBalance costs' = remainingLoanBalance costs /\
  cumulativePrincipalPaid costs' = cumulativePrincipalPaid costs /\
  cumulativeInterestPaid costs' = cumulativeInterestPaid costs /\
  forall i, (i < effectiveLoanTerm elv)%nat -> (i < 360)%nat ->
  let prevBalance :=
    match i with O => effectiveLoanAmount elv | S j => nth j (remainingLoanBalance costs) 0 end in
  let prevInterest :=
    match i with O => 0 | S j => nth j (cumulativeInterestPaid costs) 0 end in
  let interestPayment := prevBalance * (loanRate inputs / 100 / 12) in
  let principalPayment := monthlyLoanPayment elv - interestPayment in
  let recurringExpenses :=
    ((annualInsurance inputs + annualTaxes inputs) / 12 - annualIncome inputs / 12)
      * (1 + inflationRate inputs / 100) ^ (i / 12) in
  nth_error (monthlyBuyingCosts costs) i
    = Some (principalPayment
            + interestPayment * (1 - mortgageInterestDeduction inputs / 100)
            + recurringExpenses) /\
  nth_error (cumulativeInterestPaid costs) i = Some (prevInterest + interestPayment).
Proof.
  intros inputs d elv costs costs'.
  destruct (month_loop_deduction (inflationRate inputs) (loanRate inputs / 100 / 12)
              (d / 100) (mortgageInterestDeduction inputs / 100)
              (monthlyLoanPayment elv) (effectiveLoanTerm elv) 360 0 (pmc_start inputs))
    as [A [B C]].
  split; [exact A|]. split; [exact B|]. split; [exact C|].
  intros i Hi H360 prevBalance prevInterest interestPayment principalPayment recurringExpenses.
  destruct (populateMonthlyCosts_nth inputs i H360) as [Hbuy [_ [_ [_ Hint]]]].
  destruct (pmc_row_loan_month inputs i Hi) as [Rbuy Rint].
  fold elv in Rbuy, Rint.
  assert (Hprev : currentBalance (pmc_run inputs i) = prevBalance /\
                  totalInterestPaid (pmc_run inputs i) = prevInterest).
  { subst prevBalance prevInterest. destruct i as [|j].
    - split; reflexivity.
    - destruct (populateMonthlyCosts_nth inputs j ltac:(lia)) as [_ [_ [Hb [_ Hn]]]].
      destruct (pmc_row_in_term_state inputs j ltac:(fold elv; lia)) as [Sb [_ Sn]].
      subst costs. rewrite (nth_error_nth _ _ _ Hb), (nth_error_nth _ _ _ Hn), Sb, Sn.
      split; reflexivity. }
  destruct Hprev as [Pb Pn].
  pose proof (proj2 (inflated_costs (inflationRate inputs) (loanRate inputs / 100 / 12)
                       (mortgageInterestDeduction inputs / 100) (monthlyLoanPayment elv)
                       (effectiveLoanTerm elv) i (pmc_start inputs))) as Hrec.
  rewrite pmc_start_recurring in Hrec.
  subst costs. rewrite Hbuy, Hint, Rbuy, Rint.
  unfold pmc_run in Pb, Pn |- *. fold elv in Pb, Pn |- *.
  rewrite Hrec, Pb, Pn. subst interestPayment principalPayment recurringExpenses.
  split; reflexivity.
Qed.

Lemma deduction_noninterference_witness :
  let inputs := mk_inputs buy_vs_rent 0 1200 1000 12 12 0 0 in
  let costs := populateMonthlyCosts inputs in
  let costs' := populateMonthlyCosts (with_mortgageInterestDeduction inputs 30) in
  (3 < effectiveLoanTerm (getEffectiveLoanValues inputs))%nat /\
  remainingLoanBalance costs' = remainingLoanBalance costs /\
  cumulativeInterestPaid costs' = cumulativeInterestPaid costs /\
  nth_error (cumulativeInterestPaid costs) 3
    = Some (nth 2 (cumulativeInterestPaid costs) 0
            + nth 2 (remainingLoanBalance costs) 0 * (12 / 100 / 12)).
Proof.
  intros inputs costs costs'.
  assert (HT : (3 < effectiveLoanTerm (getEffectiveLoanValues inputs))%nat).
  { rewrite getEffectiveLoanValues_plain by (simpl; (lra || discriminate || congruence)).
    simpl. lia. }
  destruct (deduction_noninterference inputs 30) as (Hb & _ & Hn & Q).
  destruct (Q 3%nat HT ltac:(lia)) as [_ Hi].
  split; [exact HT|]. split; [exact Hb|]. split; [exact Hn|]. exact Hi.
Defined.

(** ** Rent inflation *)

Lemma monthlyRentingCosts_nth : forall inputs i, (i < 360)%nat ->
  nth_error (monthlyRentingCosts (populateMonthlyCosts inputs)) i
    = Some ((monthlyRent inputs + annualRentCosts inputs / 12 + otherAnnualCosts inputs / 12)
            * (1 + inflationRate inputs / 100) ^ (i / 12)).
Proof.
  intros inputs i Hi.
  destruct (populateMonthlyCosts_nth inputs i Hi) as [_ [Hr _]].
  rewrite Hr. unfold pmc_row, pmc_step, pmc_run. rewrite row_renting. reflexivity.
Qed.

(** C8: with positive inflation and a positive initial monthly renting cost
    (monthlyRent + annualRentCosts/12 + otherAnnualCosts/12), the renting
    cost at each year boundary 12k inside the 360 months is strictly above
    the one a year earlier. *)
Theorem inflation_monotonicity : forall inputs k,
  0 < inflationRate inputs ->
  0 < monthlyRent inputs + annualRentCosts inputs / 12 + otherAnnualCosts inputs / 12 ->
  (1 <= k)%nat -> (12 * k < 360)%nat ->
  exists a b,
    nth_error (monthlyRentingCosts (populateMonthlyCosts inputs)) (12 * k) = Some a /\
    nth_error (monthlyRentingCosts (populateMonthlyCosts inputs)) (12 * (k - 1)) = Some b /\
    b < a.
Proof.
  intros inputs k Hinf Hbase Hk H360.
  set (base := monthlyRent inputs + annualRentCosts inputs / 12 + otherAnnualCosts inputs / 12)
    in *.
  set (g := 1 + inflationRate inputs / 100).
  exists (base * g ^ k), (base * g ^ (k - 1)).
  rewrite !monthlyRentingCosts_nth by lia.
  rewrite !(Nat.mul_comm 12), !Nat.div_mul by lia.
  split; [reflexivity|]. split; [reflexivity|].
  replace k with (S (k - 1)) at 2 by lia. simpl pow.
  assert (Hg : 1 < g) by (subst g; lra).
  assert (Hp : 0 < g ^ (k - 1)) by (apply pow_lt; lra).
  assert (0 < base * g ^ (k - 1)) by (apply Rmult_lt_0_compat; assumption).
  nra.
Qed.

Lemma inflation_monotonicity_witness :
  exists a b,
    nth_error (monthlyRentingCosts (populateMonthlyCosts
                 (mk_inputs buy_vs_rent 3 0 0 0 0 1000 0))) (12 * 2) = Some a /\
    nth_error (monthlyRentingCosts (populateMonthlyCosts
                 (mk_inputs buy_vs_rent 3 0 0 0 0 1000 0))) (12 * (2 - 1)) = Some b /\
    b < a.
Proof.
  apply inflation_monotonicity; simpl; lra || lia.
Defined.

(** C8 fails when nothing is rented: with 3% inflation and no rent the
    renting cost stays 0, so month 12 is not above month 0. *)
Lemma inflation_monotonicity_counterexample :
  let inputs := mk_inputs buy_vs_rent 3 0 0 0 0 0 0 in
  0 < inflationRate inputs /\
  nth_error (monthlyRentingCosts (populateMonthlyCosts inputs)) 12 = Some 0 /\
  nth_error (monthlyRentingCosts (populateMonthlyCosts inputs)) 0 = Some 0.
Proof.
  intro inputs. split; [simpl; lra|].
  rewrite !monthlyRentingCosts_nth by lia. simpl. split; f_equal; lra.
Qed.

(** ** The Investment Tracker *)

Lemma keep_loop_deficit : forall costs rate f i np tr k x,
  nth_error (map fst (keep_loop costs rate i f np tr)) k = Some (Some x) -> x <= 0 ->
  exists ri,
    nth_error (map snd (keep_loop costs rate i f np tr)) k = Some ri /\
    ri <= match k with
          | O => tr
          | S j => nth j (map snd (keep_loop costs rate i f np tr)) 0
          end.
Proof.
  intros costs rate f. induction f as [|f IH]; intros i np tr k x Hk Hx.
  - destruct k; discriminate.
  - simpl in Hk |- *.
    destruct (match nsub np (nth_error costs i) with
              | Some v => if Rlt_dec 0 v then (Some (v * (1 + rate)), tr + v * rate)
                          else (Some v, tr)
              | None => (NaN, tr)
              end) as [np' tr'] eqn:E.
    simpl in Hk |- *. destruct k as [|k].
    + exists tr'. split; [reflexivity|]. injection Hk as ->.
      destruct (nsub np (nth_error costs i)) as [v|].
      * destruct (Rlt_dec 0 v) as [Hv|Hv]; injection E as <- <-; [|lra].
        assert (rate < 0) by nra. nra.
      * discriminate.
    + destruct (IH (S i) np' tr' k x Hk Hx) as [ri [Hri Hle]].
      exists ri. split; [exact Hri|]. destruct k; exact Hle.
Qed.

(** C6: whenever the net position recorded for month i is a number <= 0,
    the cumulative returns recorded for month i are no larger than those of
    month i-1 (than 0 for month 0): a month whose position ends non-positive
    earns nothing.  A NaN position compares false with 0 and is not
    covered. *)
Theorem deficit_earns_no_return : forall monthlyBuyingCosts investmentReturnRate maxMonths
    initialCashOut i x,
  let kt := calculateKeepInvestmentTracking monthlyBuyingCosts investmentReturnRate
              maxMonths initialCashOut in
  nth_error (monthlyKeepNetPosition kt) i = Some (Some x) -> x <= 0 ->
  exists ri,
    nth_error (monthlyKeepInvestmentReturns kt) i = Some ri /\
    ri <= match i with
          | O => 0
          | S j => nth j (monthlyKeepInvestmentReturns kt) 0
          end.
Proof.
  intros costs rate maxMonths init i x kt Hi Hx.
  exact (keep_loop_deficit costs (rate / 100 / 12) maxMonths 0 (Some init) 0 i x Hi Hx).
Qed.

Lemma deficit_earns_no_return_witness :
  exists ri,
    nth_error (monthlyKeepInvestmentReturns
                 (calculateKeepInvestmentTracking [50; 80; 10] 12 3 100)) 1 = Some ri /\
    ri <= nth 0 (monthlyKeepInvestmentReturns
                   (calculateKeepInvestmentTracking [50; 80; 10] 12 3 100)) 0.
Proof.
  assert (H : nth_error (monthlyKeepNetPosition
                           (calculateKeepInvestmentTracking [50; 80; 10] 12 3 100)) 1
              = Some (Some ((100 - 50) * (1 + 12 / 100 / 12) - 80))).
  { unfold calculateKeepInvestmentTracking. simpl.
    destruct (Rlt_dec 0 (100 - 50)) as [_|C]; [|lra]. simpl.
    destruct (Rlt_dec 0 ((100 - 50) * (1 + 12 / 100 / 12) - 80)) as [C|_]; [lra|].
    reflexivity. }
  exact (deficit_earns_no_return [50; 80; 10] 12 3 100 1 _ H ltac:(lra)).
Defined.

(** ** Display periods *)

Lemma year_grid_sorted : forall n s,
  Sorted Nat.lt (map (fun y => (y * 12)%nat) (seq s n)).
Proof.
  induction n as [|n IH]; intro s; simpl; [constructor|].
  constructor; [apply IH|].
  destruct n as [|n]; simpl; constructor. lia.
Qed.

(** C2: getPeriods has exactly one row per year boundary 0..projectionYears
    (months 12*year, strictly increasing), and no other row: a loan duration
    that is not a whole number of years gets no row of its own.  The row
    whose month equals a positive loan duration carries the loan-term label
    X..y instead of the plain year label; all other rows carry the year
    label. *)
Theorem periods_year_grid : forall loanDuration projectionYears,
  let periods := getPeriods loanDuration projectionYears in
  List.length periods = S projectionYears /\
  map months periods = map (fun y => (y * 12)%nat) (seq 0 (S projectionYears)) /\
  Sorted Nat.lt (map months periods) /\
  map label periods
    = map (fun y => if ((0 <? loanDuration) && (loanDuration =? y * 12))%nat
                    then loan_term_label y else year_label y)
          (seq 0 (S projectionYears)).
Proof.
  intros ld py periods.
  assert (Hm : map months periods = map (fun y => (y * 12)%nat) (seq 0 (S py))).
  { subst periods. unfold getPeriods. rewrite map_map. apply map_ext. intro y.
    destruct (_ && _)%bool; reflexivity. }
  split; [subst periods; unfold getPeriods; rewrite length_map, length_seq; reflexivity|].
  split; [exact Hm|]. split; [rewrite Hm; apply year_grid_sorted|].
  subst periods. unfold getPeriods. rewrite map_map. apply map_ext_in. intros y Hy.
  apply in_seq in Hy.
  destruct (0 <? ld)%nat eqn:H0; [|reflexivity].
  destruct (ld =? y * 12)%nat eqn:H1; [|reflexivity].
  pose proof H1 as H2. apply Nat.eqb_eq in H2. rewrite H2 at 1.
  rewrite Nat.Div0.mod_mul.
  replace (ld <=? py * 12)%nat with true by (symmetry; apply Nat.leb_le; lia).
  reflexivity.
Qed.

(** C2 fails for an 18-month loan over a 5-year horizon: month 18 lies
    inside the horizon and is not a year boundary, yet no row is injected. *)
Lemma periods_injection_counterexample :
  map months (getPeriods 18 5) = [0; 12; 24; 36; 48; 60]%nat /\
  ~ In 18%nat (map months (getPeriods 18 5)).
Proof.
  split; [reflexivity|]. simpl. intuition discriminate.
Qed.

(** ** Asset value *)

Lemma appreciate_years_nan : forall rates y n, appreciate_years rates y n NaN = NaN.
Proof. intros rates y n. revert y. induction n as [|n IH]; intro y; [reflexivity|]. apply IH. Qed.

Lemma rate_for_year_empty : forall y, rate_for_year [] y = NaN.
Proof.
  intro y. unfold rate_for_year, js_index. simpl.
  replace (Z.min (Z.of_nat y) (-1) <? 0)%Z with true by (symmetry; apply Z.ltb_lt; lia).
  reflexivity.
Qed.

(** With no appreciation rate at all every month count above 0 gives NaN. *)
Lemma calculateAssetValue_empty_rates : forall startingPrice months, (1 <= months)%nat ->
  calculateAssetValue startingPrice months [] = NaN.
Proof.
  intros p m Hm. unfold calculateAssetValue.
  destruct (m / 12)%nat as [|k] eqn:Hy.
  - assert (Hr : (0 < m mod 12)%nat).
    { pose proof (Nat.div_mod_eq m 12). rewrite Hy in *. lia. }
    rewrite (proj2 (Nat.ltb_lt _ _) Hr). rewrite rate_for_year_empty. reflexivity.
  - cbn [appreciate_years]. rewrite rate_for_year_empty. cbn [option_map nmul nlift2].
    rewrite appreciate_years_nan.
    destruct (0 <? m mod 12)%nat; reflexivity.
Qed.

Lemma calculateMonthlyPayment_minus_100 : forall principal months, (1 <= months)%nat ->
  calculateMonthlyPayment principal (-1) months = 0.
Proof.
  intros p n Hn. unfold calculateMonthlyPayment.
  destruct (Req_EM_T (-1) 0) as [C|_]; [lra|].
  replace (1 + -1) with 0 by ring. rewrite pow_i by lia.
  unfold Rdiv. ring.
Qed.

Lemma taxFreeLimitAt_empty : forall years, taxFreeLimitAt [] years = 0.
Proof.
  intro years. unfold taxFreeLimitAt, js_index. simpl List.length.
  destruct (Z.max 0 (Z.min (Z.of_nat years - 1) (Z.of_nat 0 - 1)) <? 0)%Z; [reflexivity|].
  destruct (Z.to_nat _); reflexivity.
Qed.

Lemma calculateAssetValue_30_months :
  calculateAssetValue 100000 30 [10; 5; 3]
    = Some (100000 * (1 + 10 / 100) * (1 + 5 / 100) * Rpower (1 + 3 / 100) (6 / 12)).
Proof.
  unfold calculateAssetValue. simpl (30 / 12)%nat. simpl (30 mod 12)%nat. simpl.
  unfold js_pow_frac. destruct (Rlt_dec 0 (1 + 3 / 100)) as [_|C]; [|lra].
  replace (1 + 1 + 1 + 1 + 1 + 1) with 6 by ring. reflexivity.
Qed.

Lemma calculateAssetValue_360_months :
  calculateAssetValue 100000 360 [10; 5; 3]
    = Some (100000 * (1 + 10 / 100) * (1 + 5 / 100) * (1 + 3 / 100) ^ 28).
Proof.
  unfold calculateAssetValue. simpl. f_equal. ring.
Qed.

(** C4: calculateAssetValue counts its second argument in months.  For 30
    months with rates [10,5,3] it applies 1.10 and 1.05 for the two whole
    years and then 1.03^(6/12) for the remaining half year; the product with
    1.03 for each of years 3 to 30 is the value for 360 months. *)
Theorem asset_value_rate_array : 
  calculateAssetValue 100000 30 [10; 5; 3]
    = Some (100000 * (1 + 10 / 100) * (1 + 5 / 100) * Rpower (1 + 3 / 100) (6 / 12)) /\
  calculateAssetValue 100000 360 [10; 5; 3]
    = Some (100000 * (1 + 10 / 100) * (1 + 5 / 100) * (1 + 3 / 100) ^ 28).
Proof.
  split; [apply calculateAssetValue_30_months | apply calculateAssetValue_360_months].
Qed.

(** C4 as stated fails: for 30 (months) the result is not
    100000 * 1.10 * 1.05 * 1.03^28. *)
Lemma asset_value_rate_array_counterexample :
  calculateAssetValue 100000 30 [10; 5; 3]
    <> Some (100000 * (1 + 10 / 100) * (1 + 5 / 100) * (1 + 3 / 100) ^ 28).
Proof.
  rewrite calculateAssetValue_30_months. intro H. injection H as H.
  assert (Hlt : Rpower (1 + 3 / 100) (6 / 12) < 1 + 3 / 100).
  { rewrite <- (Rpower_1 (1 + 3 / 100)) at 2 by lra. apply Rpower_lt; lra. }
  assert (Hle : 1 + 3 / 100 <= (1 + 3 / 100) ^ 28).
  { rewrite <- (pow_1 (1 + 3 / 100)) at 1. apply Rle_pow; [lra | lia]. }
  assert (HK : 0 < 100000 * (1 + 10 / 100) * (1 + 5 / 100)) by lra.
  nra.
Qed.

(** C5: the engine rejects nothing.  With no appreciation rate
    calculateAssetValue returns NaN for every month count above 0 (it reads
    appreciationRates[-1]); with no tax-free limit the lookup gives 0; with a
    monthly rate of exactly -100% calculateMonthlyPayment returns 0 for every
    loan of at least one month (the factor (1+r)^n is 0 and the denominator
    -1, not 0). *)
Theorem degenerate_inputs_not_rejected :
  (forall startingPrice months, (1 <= months)%nat ->
     calculateAssetValue startingPrice months [] = NaN) /\
  (forall years, taxFreeLimitAt [] years = 0) /\
  (forall principal months, (1 <= months)%nat ->
     calculateMonthlyPayment principal (-1) months = 0).
Proof.
  split; [exact calculateAssetValue_empty_rates|].
  split; [exact taxFreeLimitAt_empty | exact calculateMonthlyPayment_minus_100].
Qed.

Lemma degenerate_inputs_not_rejected_witness :
  calculateAssetValue 100000 12 [] = NaN /\ calculateMonthlyPayment 1000 (-1) 12 = 0.
Proof.
  destruct degenerate_inputs_not_rejected as [A [_ C]].
  split; [apply A | apply C]; lia.
Defined.

(** C5 fails: for an empty rate array the engine returns NaN instead of
    rejecting the input, and at -100% a month it returns the number 0. *)
Lemma degenerate_inputs_counterexample :
  calculateAssetValue 100000 12 [] = NaN /\
  calculateMonthlyPayment 1000 (-1) 12 = 0.
Proof.
  split; [apply calculateAssetValue_empty_rates | apply calculateMonthlyPayment_minus_100]; lia.
Qed.

(** ** Sale proceeds *)

Lemma getEffectiveLoanValues_no_loan : forall inputs, loanAmount inputs <= 0 ->
  getEffectiveLoanValues inputs =
  {| effectiveLoanAmount := 0; effectiveLoanTerm := 0;
     monthlyLoanPayment := 0; refinanceCashOut := 0 |}.
Proof.
  intros inputs H. unfold getEffectiveLoanValues.
  destruct (Rle_dec (loanAmount inputs) 0) as [_|C]; [reflexivity|contradiction].
Qed.

Lemma calculateSaleProceeds_no_selling : forall inputs months rlb e,
  let sp := calculateSaleProceeds inputs months rlb e false in
  totalSellingCosts sp = Some 0 /\ capitalGains sp = Some 0 /\ taxOnGains sp = Some 0 /\
  netProceeds sp = nsub (salePrice sp) (loanPayoff sp).
Proof. intros. repeat split. Qed.

(** C3: calculateSaleProceeds with includeSelling = false returns zero
    selling costs, capital gains and tax and netProceeds = salePrice -
    loanPayoff; calculate passes false exactly outside sell_vs_keep when
    includeSelling is off. In every other case (sell_vs_keep, whatever
    includeSelling says, or includeSelling on) each row charges the agent fee
    on its sale price plus the staging costs inflated to the row's own sale
    year, floor(months / 12). *)
Theorem selling_disabled_short_circuit :
  (forall inputs months rlb e,
     let sp := calculateSaleProceeds inputs months rlb e false in
     totalSellingCosts sp = Some 0 /\ capitalGains sp = Some 0 /\ taxOnGains sp = Some 0 /\
     netProceeds sp = nsub (salePrice sp) (loanPayoff sp)) /\
  (forall inputs, scenario inputs <> sell_vs_keep -> includeSelling inputs = false ->
     Forall (fun row : string * SaleProceeds =>
               let sp := snd row in
               totalSellingCosts sp = Some 0 /\ capitalGains sp = Some 0 /\
               taxOnGains sp = Some 0 /\ netProceeds sp = nsub (salePrice sp) (loanPayoff sp))
            (calculate_saleProceedsTable inputs)) /\
  (forall inputs, (scenario inputs = sell_vs_keep \/ includeSelling inputs = true) ->
     Forall2 (fun (p : Period) (row : string * SaleProceeds) =>
                let sp := snd row in
                totalSellingCosts sp
                  = nadd (nmul (salePrice sp) (Some (agentCommission inputs / 100)))
                         (Some (stagingCosts inputs
                                * (1 + inflationRate inputs / 100) ^ (months p / 12))))
             (getPeriods (effectiveLoanTerm (getEffectiveLoanValues inputs))
                         (projectionYears inputs))
             (calculate_saleProceedsTable inputs)).
Proof.
  split; [exact calculateSaleProceeds_no_selling|]. split.
  - intros inputs Hs Hsel. unfold calculate_saleProceedsTable. cbv zeta.
    replace (is_sell_vs_keep (scenario inputs)) with false
      by (destruct (scenario inputs) eqn:E; simpl; congruence).
    rewrite Hsel. apply Forall_forall. intros row Hin. apply in_map_iff in Hin.
    destruct Hin as [p [<- _]]. apply calculateSaleProceeds_no_selling.
  - intros inputs Hs. unfold calculate_saleProceedsTable. cbv zeta.
    assert (Ht : (if is_sell_vs_keep (scenario inputs) then true else includeSelling inputs)
                 = true).
    { destruct Hs as [Hs|Hs]; [rewrite Hs; reflexivity|].
      rewrite Hs. destruct (is_sell_vs_keep (scenario inputs)); reflexivity. }
    rewrite Ht.
    induction (getPeriods (effectiveLoanTerm (getEffectiveLoanValues inputs))
                 (projectionYears inputs)) as [|p ps IH];
      constructor; [reflexivity | exact IH].
Qed.

Lemma selling_disabled_short_circuit_witness :
  Forall (fun row : string * SaleProceeds =>
            let sp := snd row in
            totalSellingCosts sp = Some 0 /\ capitalGains sp = Some 0 /\
            taxOnGains sp = Some 0 /\ netProceeds sp = nsub (salePrice sp) (loanPayoff sp))
         (calculate_saleProceedsTable (mk_inputs buy_vs_rent 0 100000 0 0 0 0 6)) /\
  Forall2 (fun (p : Period) (row : string * SaleProceeds) =>
             let sp := snd row in
             totalSellingCosts sp
               = nadd (nmul (salePrice sp) (Some (6 / 100)))
                      (Some (0 * (1 + 0 / 100) ^ (months p / 12))))
          (getPeriods (effectiveLoanTerm (getEffectiveLoanValues
                         (mk_inputs sell_vs_keep 0 100000 0 0 0 0 6))) 0)
          (calculate_saleProceedsTable (mk_inputs sell_vs_keep 0 100000 0 0 0 0 6)).
Proof.
  destruct selling_disabled_short_circuit as [_ [B C]]. split.
  - apply B; [discriminate | reflexivity].
  - apply (C (mk_inputs sell_vs_keep 0 100000 0 0 0 0 6)). left. reflexivity.
Defined.

(** C3 fails for sell_vs_keep: even with includeSelling off, the sale
    proceeds of [calculate] charge a 6% agent fee on a 100000 sale. *)
Lemma selling_disabled_counterexample :
  let inputs := mk_inputs sell_vs_keep 0 100000 0 0 0 0 6 in
  includeSelling inputs = false /\
  exists row, In row (calculate_saleProceedsTable inputs) /\
              totalSellingCosts (snd row) <> Some 0.
Proof.
  intro inputs. split; [reflexivity|].
  unfold calculate_saleProceedsTable. cbv zeta.
  generalize (populateMonthlyCosts inputs) as costs. intro costs.
  rewrite getEffectiveLoanValues_no_loan by (simpl; lra).
  simpl. eexists. split; [left; reflexivity|].
  simpl. intro H. injection H as H. lra.
Qed.

Lemma Q2R_one : Q2R 1 = 1.
Proof. unfold Q2R. simpl. field. Qed.

Lemma Q2R_qpow : forall x n, Q2R (qpow x n) = Q2R x ^ n.
Proof.
  intros x n. induction n as [|n IH]; simpl; [apply Q2R_one|].
  rewrite Q2R_mult, IH. reflexivity.
Qed.

Lemma Q2R_amortizeQ : forall p r n b,
  Q2R (amortizeQ p r n b) = amortize (Q2R p) (Q2R r) n (Q2R b).
Proof.
  intros p r n. induction n as [|n IH]; intro b; [reflexivity|].
  cbn [amortizeQ amortize]. rewrite IH. f_equal.
  rewrite (Qeq_eqR _ _ (Qred_correct _)), !Q2R_minus, Q2R_mult. reflexivity.
Qed.

Lemma Q2R_calculateMonthlyPaymentQ : forall p r n,
  ~ (r == 0)%Q -> ~ (qpow (1 + r) n - 1 == 0)%Q ->
  Q2R (calculateMonthlyPaymentQ p r n) = calculateMonthlyPayment (Q2R p) (Q2R r) n.
Proof.
  intros p r n Hr Hf. unfold calculateMonthlyPaymentQ, calculateMonthlyPayment.
  destruct (Qeq_bool r 0) eqn:E; [apply Qeq_bool_iff in E; contradiction|].
  destruct (Req_EM_T (Q2R r) 0) as [C|_].
  { exfalso. apply Hr. apply eqR_Qeq. rewrite C. unfold Q2R. simpl. ring. }
  rewrite Q2R_div by exact Hf.
  rewrite !Q2R_mult, Q2R_minus, Q2R_qpow, Q2R_plus, Q2R_one. reflexivity.
Qed.

Lemma amortize_monotone : forall r n p1 p2 b1 b2,
  0 <= 1 + r -> p2 <= p1 -> b1 <= b2 ->
  amortize p1 r n b1 <= amortize p2 r n b2.
Proof.
  intros r n. induction n as [|n IH]; intros p1 p2 b1 b2 Hr Hp Hb; [exact Hb|].
  cbn [amortize]. apply IH; [exact Hr | exact Hp | nra].
Qed.

Lemma Q2R_Z : forall z, Q2R (z # 1) = IZR z.
Proof. intro z. unfold Q2R. simpl. field. Qed.

Lemma example_rate : Q2R (13 # 2400) = 13 / 2 / 100 / 12.
Proof. unfold Q2R. simpl. field. Qed.

Lemma example_payment :
  monthlyLoanPayment (getEffectiveLoanValues example_loan_inputs) = Q2R example_paymentQ.
Proof.
  rewrite getEffectiveLoanValues_plain by (simpl; (lra || discriminate || congruence)).
  cbn [monthlyLoanPayment]. unfold example_paymentQ.
  rewrite Q2R_calculateMonthlyPaymentQ.
  - rewrite Q2R_Z, example_rate. reflexivity.
  - intro H. vm_compute in H. discriminate.
  - intro H. vm_compute in H. discriminate.
Qed.

Lemma example_payment_tight :
  Q2R (25282720 # 10000) < Q2R example_paymentQ < Q2R (25282721 # 10000).
Proof. split; apply Qlt_Rlt; vm_compute; reflexivity. Qed.

Lemma example_balance_at : forall k, (k < 360)%nat ->
  nth_error (remainingLoanBalance (populateMonthlyCosts example_loan_inputs)) k
    = Some (amortize (Q2R example_paymentQ) (13 / 2 / 100 / 12) (S k) 400000).
Proof.
  intros k Hk.
  destruct (populateMonthlyCosts_nth example_loan_inputs k Hk) as [_ [_ [Hb _]]].
  rewrite Hb. f_equal.
  assert (HT : effectiveLoanTerm (getEffectiveLoanValues example_loan_inputs) = 360%nat).
  { rewrite getEffectiveLoanValues_plain by (simpl; (lra || discriminate || congruence)).
    reflexivity. }
  destruct (pmc_row_in_term example_loan_inputs k ltac:(rewrite HT; lia)) as [Hbal _].
  rewrite Hbal, example_payment.
  rewrite getEffectiveLoanValues_plain by (simpl; (lra || discriminate || congruence)).
  reflexivity.
Qed.

Lemma example_balance_between : forall n,
  Q2R (amortizeQ (25282721 # 10000) (13 # 2400) n (400000 # 1))
    <= amortize (Q2R example_paymentQ) (13 / 2 / 100 / 12) n 400000 <=
  Q2R (amortizeQ (25282720 # 10000) (13 # 2400) n (400000 # 1)).
Proof.
  intro n. rewrite !Q2R_amortizeQ, example_rate, Q2R_Z.
  destruct example_payment_tight as [HL HH].
  split; apply amortize_monotone; lra.
Qed.

Lemma example_balance_last :
  nth_error (remainingLoanBalance (populateMonthlyCosts example_loan_inputs)) 359 = Some 0.
Proof.
  rewrite example_balance_at by lia. f_equal.
  rewrite <- example_payment.
  rewrite getEffectiveLoanValues_plain by (simpl; (lra || discriminate || congruence)).
  cbn [monthlyLoanPayment].
  change (loanAmount example_loan_inputs) with 400000.
  change (loanRate example_loan_inputs) with (13 / 2).
  change (loanTerm example_loan_inputs) with 360%nat.
  apply amortize_closes; [lia|].
  right. apply Rgt_not_eq, Rlt_gt, Rlt_pow_R1; [lra | lia].
Qed.

Lemma example_payment_bounds : 252827 / 100 < Q2R example_paymentQ < 252828 / 100.
Proof.
  destruct example_payment_tight as [HL HH].
  replace (Q2R (25282720 # 10000)) with (25282720 / 10000) in HL by (unfold Q2R; simpl; field).
  replace (Q2R (25282721 # 10000)) with (25282721 / 10000) in HH by (unfold Q2R; simpl; field).
  lra.
Qed.

Lemma example_balance_12_bounds :
  395529 < Q2R (amortizeQ (25282721 # 10000) (13 # 2400) 12 (400000 # 1)) /\
  Q2R (amortizeQ (25282720 # 10000) (13 # 2400) 12 (400000 # 1)) < 395530.
Proof.
  rewrite <- (Q2R_Z 395529), <- (Q2R_Z 395530).
  split; apply Qlt_Rlt; vm_compute; reflexivity.
Qed.

Lemma example_balance_13_bounds :
  395143 < Q2R (amortizeQ (25282721 # 10000) (13 # 2400) 13 (400000 # 1)) /\
  Q2R (amortizeQ (25282720 # 10000) (13 # 2400) 13 (400000 # 1)) < 395144.
Proof.
  rewrite <- (Q2R_Z 395143), <- (Q2R_Z 395144).
  split; apply Qlt_Rlt; vm_compute; reflexivity.
Qed.

(** C7: for purchase price 500,000, a 400,000 loan at 6.5% a year over 360
    months and no deduction, the monthly payment lies between 2,528.27 and
    2,528.28, the balance after the twelfth payment
    (remainingLoanBalance[11]) lies between 395,529 and 395,530, and the
    balance after the 360th payment (remainingLoanBalance[359]) is 0. *)
Theorem amortization_example :
  let elv := getEffectiveLoanValues example_loan_inputs in
  let costs := populateMonthlyCosts example_loan_inputs in
  252827 / 100 < monthlyLoanPayment elv < 252828 / 100 /\
  (exists b, nth_error (remainingLoanBalance costs) 11 = Some b /\ 395529 < b < 395530) /\
  nth_error (remainingLoanBalance costs) 359 = Some 0.
Proof.
  cbv zeta. rewrite example_payment.
  split; [exact example_payment_bounds|]. split; [|exact example_balance_last].
  eexists. split; [apply example_balance_at; lia|].
  destruct (example_balance_between 12) as [L H].
  destruct example_balance_12_bounds as [L' H']. lra.
Qed.

(** C7, the spec's figure: neither the balance after twelve payments
    (remainingLoanBalance[11]) nor the one after thirteen
    (remainingLoanBalance[12]) is within 1 of 395,310. *)
Lemma amortization_example_counterexample :
  exists b11 b12,
    nth_error (remainingLoanBalance (populateMonthlyCosts example_loan_inputs)) 11 = Some b11 /\
    nth_error (remainingLoanBalance (populateMonthlyCosts example_loan_inputs)) 12 = Some b12 /\
    395310 + 1 < b11 /\ b12 < 395310 - 1.
Proof.
  do 2 eexists. split; [apply example_balance_at; lia|].
  split; [apply example_balance_at; lia|].
  destruct (example_balance_between 12) as [L1 H1].
  destruct (example_balance_between 13) as [L2 H2].
  destruct example_balance_12_bounds as [A1 B1].
  destruct example_balance_13_bounds as [A2 B2]. lra.
Qed.

(** * calculateRentingNetWorth and the comparison table *)

Lemma renting_loop_nan : forall b r g i n,
  renting_loop b r g i n NaN = NaN.
Proof. intros b r g i n. revert i. induction n as [|n IH]; intro i; [reflexivity|]. apply IH. Qed.

Lemma savings_loop_nan : forall b r i n,
  savings_loop b r i n NaN = NaN.
Proof. intros b r i n. revert i. induction n as [|n IH]; intro i; [reflexivity|]. apply IH. Qed.

(** A finite sum [sum_{j<n} f j]. *)
Lemma sum_seq_shift : forall (f : nat -> R) n,
  fold_right Rplus 0 (map f (seq 0 (S n)))
    = f O + fold_right Rplus 0 (map (fun j => f (S j)) (seq 0 n)).
Proof.
  intros f n. simpl. f_equal. rewrite <- seq_shift, map_map. reflexivity.
Qed.

Lemma renting_loop_closed : forall b r g n i v,
  (i + n <= List.length b)%nat -> (i + n <= List.length r)%nat ->
  renting_loop b r g i n (Some v)
    = Some (v * (1 + g) ^ n
            + fold_right Rplus 0
                (map (fun j => (nth (i + j) b 0 - nth (i + j) r 0) * (1 + g) ^ (n - j))
                     (seq 0 n))).
Proof.
  intros b r g n. induction n as [|n IH]; intros i v Hb Hr.
  - simpl. f_equal. ring.
  - cbn [renting_loop].
    rewrite (nth_error_nth' b 0) by lia. rewrite (nth_error_nth' r 0) by lia.
    cbn [nsub nadd nmul nlift2].
    rewrite IH by lia. f_equal.
    rewrite sum_seq_shift.
    rewrite Nat.add_0_r, Nat.sub_0_r.
    replace (map (fun j => (nth (i + S j) b 0 - nth (i + S j) r 0) * (1 + g) ^ (S n - S j))
                 (seq 0 n))
      with (map (fun j => (nth (S i + j) b 0 - nth (S i + j) r 0) * (1 + g) ^ (n - j))
                (seq 0 n)).
    + simpl pow. ring.
    + apply map_ext. intro j. replace (i + S j)%nat with (S i + j)%nat by lia. reflexivity.
Qed.

Lemma savings_loop_closed : forall b r n i v,
  (i + n <= List.length b)%nat -> (i + n <= List.length r)%nat ->
  savings_loop b r i n (Some v)
    = Some (v + fold_right Rplus 0
                  (map (fun j => nth (i + j) b 0 - nth (i + j) r 0) (seq 0 n))).
Proof.
  intros b r n. induction n as [|n IH]; intros i v Hb Hr.
  - simpl. f_equal. ring.
  - cbn [savings_loop].
    rewrite (nth_error_nth' b 0) by lia. rewrite (nth_error_nth' r 0) by lia.
    cbn [nsub nadd nlift2].
    rewrite IH by lia. f_equal.
    rewrite sum_seq_shift, Nat.add_0_r.
    replace (map (fun j => nth (i + S j) b 0 - nth (i + S j) r 0) (seq 0 n))
      with (map (fun j => nth (S i + j) b 0 - nth (S i + j) r 0) (seq 0 n)).
    + ring.
    + apply map_ext. intro j. replace (i + S j)%nat with (S i + j)%nat by lia. reflexivity.
Qed.

(** A month [k] in [i, i+n) whose slot is missing in either array. *)
Lemma renting_loop_past_end : forall b r g n i v k,
  (i <= k < i + n)%nat -> (nth_error b k = None \/ nth_error r k = None) ->
  renting_loop b r g i n v = NaN.
Proof.
  intros b r g n. induction n as [|n IH]; intros i v k Hk Hnone; [lia|].
  cbn [renting_loop].
  destruct (Nat.eq_dec k i) as [->|Hne].
  - destruct Hnone as [H|H]; rewrite H;
      [|destruct (nth_error b i)];
      cbn [nsub nadd nmul nlift2]; destruct v; apply renting_loop_nan.
  - apply (IH (S i) _ k); [lia | exact Hnone].
Qed.

Lemma savings_loop_past_end : forall b r n i v k,
  (i <= k < i + n)%nat -> (nth_error b k = None \/ nth_error r k = None) ->
  savings_loop b r i n v = NaN.
Proof.
  intros b r n. induction n as [|n IH]; intros i v k Hk Hnone; [lia|].
  cbn [savings_loop].
  destruct (Nat.eq_dec k i) as [->|Hne].
  - destruct Hnone as [H|H]; rewrite H;
      [|destruct (nth_error b i)];
      cbn [nsub nadd nlift2]; destruct v; apply savings_loop_nan.
  - apply (IH (S i) _ k); [lia | exact Hnone].
Qed.

(** rentingNetWorth in closed form: the initial investment (downpayment -
    deposit) and every month's savings compound monthly until [months]; 75%
    of the deposit comes back. *)
Theorem rentingNetWorth_closed_form : forall inputs months b r,
  (months <= List.length b)%nat -> (months <= List.length r)%nat ->
  let g := investmentReturnRate inputs / 100 / 12 in
  calculateRentingNetWorth inputs months b r
    = Some ((purchasePrice inputs - loanAmount inputs - rentDeposit inputs) * (1 + g) ^ months
            + fold_right Rplus 0
                (map (fun j => (nth j b 0 - nth j r 0) * (1 + g) ^ (months - j))
                     (seq 0 months))
            + rentDeposit inputs * (75 / 100)).
Proof.
  intros inputs months b r Hb Hr g. unfold calculateRentingNetWorth.
  rewrite renting_loop_closed by lia. reflexivity.
Qed.

Theorem rentingNetWorth_closed_form_witness :
  (1 <= List.length [5])%nat /\ (1 <= List.length [3])%nat /\
  calculateRentingNetWorth (mk_inputs buy_vs_rent 0 100 60 0 0 0 0) 1 [5] [3]
    = Some ((100 - 60 - 0) * (1 + 0 / 100 / 12) ^ 1
            + fold_right Rplus 0
                (map (fun j => (nth j [5] 0 - nth j [3] 0) * (1 + 0 / 100 / 12) ^ (1 - j))
                     (seq 0 1))
            + 0 * (75 / 100)).
Proof.
  split; [simpl; lia|]. split; [simpl; lia|].
  apply (rentingNetWorth_closed_form (mk_inputs buy_vs_rent 0 100 60 0 0 0 0) 1 [5] [3]);
    simpl; lia.
Defined.

(** A horizon longer than either cost array makes the renting net worth NaN. *)
Theorem rentingNetWorth_past_arrays : forall inputs months b r,
  (List.length b < months \/ List.length r < months)%nat ->
  calculateRentingNetWorth inputs months b r = NaN.
Proof.
  intros inputs months b r H. unfold calculateRentingNetWorth.
  destruct (Nat.le_gt_cases (List.length b) (List.length r)) as [Hle|Hgt].
  - rewrite (renting_loop_past_end _ _ _ _ _ _ (List.length b)); [reflexivity|lia|].
    left. apply nth_error_None. lia.
  - rewrite (renting_loop_past_end _ _ _ _ _ _ (List.length r)); [reflexivity|lia|].
    right. apply nth_error_None. lia.
Qed.

Theorem rentingNetWorth_past_arrays_witness :
  calculateRentingNetWorth (mk_inputs buy_vs_rent 0 100 60 0 0 0 0) 2 [5] [3] = NaN.
Proof.
  apply rentingNetWorth_past_arrays. simpl. lia.
Defined.

(** The comparison table's rows, paired with the periods. *)
Lemma Forall2_map_r : forall {A B} (P : A -> B -> Prop) (f : A -> B) l,
  Forall (fun x => P x (f x)) l -> Forall2 P l (map f l).
Proof.
  intros A B P f l H. induction H; constructor; assumption.
Qed.

(** With a zero investment return, every comparison row whose horizon fits
    in the 360-month arrays reports a market return of exactly 0; a longer
    horizon gives NaN. *)
Theorem comparison_zero_return_market : forall inputs,
  investmentReturnRate inputs = 0 ->
  let elv := getEffectiveLoanValues inputs in
  Forall2 (fun p row =>
             cmp_marketReturn row = if (months p <=? 360)%nat then Some 0 else NaN)
          (getPeriods (effectiveLoanTerm elv) (projectionYears inputs))
          (calculate_comparisonTable inputs).
Proof.
  intros inputs H0 elv. unfold calculate_comparisonTable. cbv zeta.
  apply Forall2_map_r. apply Forall_forall. intros p _.
  destruct (populateMonthlyCosts_length inputs) as [Lb [Lr _]].
  unfold comparison_row. cbn [cmp_marketReturn].
  unfold calculateRentingNetWorth. rewrite H0.
  replace (0 / 100 / 12) with 0 by field.
  generalize (populateMonthlyCosts inputs) Lb Lr. intros costs Lb' Lr'.
  destruct (months p <=? 360)%nat eqn:E.
  - apply Nat.leb_le in E.
    rewrite renting_loop_closed, savings_loop_closed by lia.
    cbn [nadd nsub nlift2]. f_equal.
    replace (map (fun j => (nth (0 + j) (monthlyBuyingCosts costs) 0
                            - nth (0 + j) (monthlyRentingCosts costs) 0) * (1 + 0) ^ (months p - j))
                 (seq 0 (months p)))
      with (map (fun j => nth (0 + j) (monthlyBuyingCosts costs) 0
                          - nth (0 + j) (monthlyRentingCosts costs) 0) (seq 0 (months p))).
    + rewrite Rplus_0_r, pow1. ring.
    + apply map_ext. intro j. rewrite Rplus_0_r, pow1. ring.
  - apply Nat.leb_gt in E.
    rewrite (renting_loop_past_end _ _ _ _ _ _ 360); [reflexivity|lia|].
    left. apply nth_error_None. lia.
Qed.

(** * calculateKeepInvestmentTracking *)

Lemma skipn_nth_error_cons : forall {A} (l : list A) i x,
  nth_error l i = Some x -> skipn i l = x :: skipn (S i) l.
Proof.
  intros A l. induction l as [|a l IH]; intros i x H; destruct i; simpl in *;
    try discriminate.
  - injection H as ->. reflexivity.
  - apply IH. exact H.
Qed.

Lemma keep_loop_length : forall c g i n np tr,
  List.length (keep_loop c g i n np tr) = n.
Proof.
  intros c g i n. revert i. induction n as [|n IH]; intros i np tr; [reflexivity|].
  cbn [keep_loop]. destruct (nsub np (nth_error c i)) as [x|];
    [destruct (Rlt_dec 0 x)|]; simpl; rewrite IH; reflexivity.
Qed.

(** Accounting of the loop while it reads real costs. *)
Lemma keep_loop_accounting : forall c g k i n np tr,
  (k < n)%nat -> (i + k < List.length c)%nat ->
  exists np' tr',
    nth_error (keep_loop c g i n (Some np) tr) k = Some (Some np', tr') /\
    np' = np - fold_right Rplus 0 (firstn (S k) (skipn i c)) + (tr' - tr).
Proof.
  intros c g k. induction k as [|k IH]; intros i n np tr Hk Hc;
    destruct n as [|n]; try lia.
  - destruct (nth_error c i) as [ci|] eqn:Ei;
      [|apply nth_error_None in Ei; lia].
    rewrite (skipn_nth_error_cons c i ci Ei).
    cbn [keep_loop]. rewrite Ei. cbn [nsub nlift2].
    destruct (Rlt_dec 0 (np - ci)); simpl; do 2 eexists; split; try reflexivity; lra.
  - destruct (nth_error c i) as [ci|] eqn:Ei;
      [|apply nth_error_None in Ei; lia].
    rewrite (skipn_nth_error_cons c i ci Ei).
    cbn [keep_loop]. rewrite Ei. cbn [nsub nlift2].
    destruct (Rlt_dec 0 (np - ci)).
    + destruct (IH (S i) n ((np - ci) * (1 + g)) (tr + (np - ci) * g)) as (np' & tr' & H & E);
        [lia | lia |].
      exists np', tr'. split; [exact H|]. rewrite E. simpl. lra.
    + destruct (IH (S i) n (np - ci) tr) as (np' & tr' & H & E); [lia | lia |].
      exists np', tr'. split; [exact H|]. rewrite E. simpl. lra.
Qed.

(** The net position is the initial cash, minus every cost so far, plus the
    returns earned so far. *)
Theorem keep_tracking_accounting : forall monthlyBuyingCosts investmentReturnRate
    maxMonths initialCashOut k,
  (k < maxMonths)%nat -> (k < List.length monthlyBuyingCosts)%nat ->
  let kt := calculateKeepInvestmentTracking monthlyBuyingCosts investmentReturnRate
              maxMonths initialCashOut in
  exists x ret,
    nth_error (monthlyKeepNetPosition kt) k = Some (Some x) /\
    nth_error (monthlyKeepInvestmentReturns kt) k = Some ret /\
    x = initialCashOut - fold_right Rplus 0 (firstn (S k) monthlyBuyingCosts) + ret.
Proof.
  intros c rate maxMonths init k Hk Hc kt.
  destruct (keep_loop_accounting c (rate / 100 / 12) k 0 maxMonths init 0 Hk
              ltac:(lia)) as (np' & tr' & H & E).
  exists np', tr'. unfold kt, calculateKeepInvestmentTracking.
  cbn [monthlyKeepNetPosition monthlyKeepInvestmentReturns].
  rewrite !nth_error_map, H. cbn [option_map fst snd]. split; [reflexivity|].
  split; [reflexivity|]. rewrite E. cbn [skipn]. lra.
Qed.

Theorem keep_tracking_accounting_witness :
  (0 < 2)%nat /\ (0 < List.length [10; 20])%nat /\
  exists x ret,
    nth_error (monthlyKeepNetPosition
                 (calculateKeepInvestmentTracking [10; 20] 6 2 100)) 0 = Some (Some x) /\
    nth_error (monthlyKeepInvestmentReturns
                 (calculateKeepInvestmentTracking [10; 20] 6 2 100)) 0 = Some ret /\
    x = 100 - fold_right Rplus 0 (firstn 1 [10; 20]) + ret.
Proof.
  split; [lia|]. split; [simpl; lia|].
  apply (keep_tracking_accounting [10; 20] 6 2 100 0); simpl; lia.
Defined.

Lemma nth_map_snd_num : forall (l : list (num * R)) k,
  nth k (map snd l) 0 = snd (nth k l (NaN, 0)).
Proof.
  intros l. induction l as [|a l IH]; intros [|k]; simpl; auto.
Qed.

Lemma keep_loop_first_ge : forall c g i n np tr,
  0 <= g -> (0 < n)%nat ->
  tr <= snd (nth 0 (keep_loop c g i n np tr) (NaN, 0)).
Proof.
  intros c g i n np tr Hg Hn. destruct n as [|n]; [lia|].
  cbn [keep_loop]. destruct (nsub np (nth_error c i)) as [x|];
    [destruct (Rlt_dec 0 x)|]; cbn [nth snd]; try lra.
  assert (0 <= x * g) by (apply Rmult_le_pos; lra). lra.
Qed.

Lemma keep_loop_mono : forall c g k i n np tr,
  0 <= g -> (S k < n)%nat ->
  snd (nth k (keep_loop c g i n np tr) (NaN, 0))
    <= snd (nth (S k) (keep_loop c g i n np tr) (NaN, 0)).
Proof.
  intros c g k. induction k as [|k IH]; intros i n np tr Hg Hk;
    destruct n as [|n]; try lia.
  - cbn [keep_loop]. destruct (nsub np (nth_error c i)) as [x|];
      [destruct (Rlt_dec 0 x)|]; cbn [nth snd]; apply keep_loop_first_ge; lia || lra.
  - cbn [keep_loop]. destruct (nsub np (nth_error c i)) as [x|];
      [destruct (Rlt_dec 0 x)|]; cbn [nth]; apply IH; lia || lra.
Qed.

(** With a non-negative return rate the cumulative returns start at or
    above 0 and never decrease. *)
Theorem keep_tracking_returns_monotone : forall monthlyBuyingCosts investmentReturnRate
    maxMonths initialCashOut k,
  0 <= investmentReturnRate -> (k < maxMonths)%nat ->
  let r := monthlyKeepInvestmentReturns
             (calculateKeepInvestmentTracking monthlyBuyingCosts investmentReturnRate
                maxMonths initialCashOut) in
  match k with O => 0 | S j => nth j r 0 end <= nth k r 0.
Proof.
  intros c rate maxMonths init k Hr Hk r. unfold r, calculateKeepInvestmentTracking.
  cbn [monthlyKeepInvestmentReturns].
  assert (Hg : 0 <= rate / 100 / 12) by lra.
  destruct k as [|j]; rewrite !nth_map_snd_num.
  - apply keep_loop_first_ge; [exact Hg | lia].
  - apply keep_loop_mono; [exact Hg | lia].
Qed.

Theorem keep_tracking_returns_monotone_witness :
  0 <= 6 /\ (1 < 3)%nat /\
  nth 0 (monthlyKeepInvestmentReturns (calculateKeepInvestmentTracking [10; -20; 5] 6 3 100)) 0
    <= nth 1 (monthlyKeepInvestmentReturns
                (calculateKeepInvestmentTracking [10; -20; 5] 6 3 100)) 0.
Proof.
  split; [lra|]. split; [lia|].
  exact (keep_tracking_returns_monotone [10; -20; 5] 6 3 100 1 ltac:(lra) ltac:(lia)).
Defined.

Lemma keep_loop_past_end : forall c g k i n np tr,
  (k < n)%nat -> (List.length c <= i + k)%nat ->
  nth_error (keep_loop c g i n np tr) k
    = Some (NaN, match k with
                 | O => tr
                 | S j => snd (nth j (keep_loop c g i n np tr) (NaN, 0))
                 end).
Proof.
  intros c g k. induction k as [|k IH]; intros i n np tr Hk Hc;
    destruct n as [|n]; try lia.
  - cbn [keep_loop]. rewrite (proj2 (nth_error_None c i)) by lia.
    destruct np; reflexivity.
  - cbn [keep_loop]. destruct (nsub np (nth_error c i)) as [x|];
      [destruct (Rlt_dec 0 x)|]; cbn [nth_error nth];
      rewrite IH by lia; destruct k; reflexivity.
Qed.

(** Months past the end of the cost array have a NaN net position and
    earn nothing: the cumulative returns stay where they were. *)
Theorem keep_tracking_past_costs : forall monthlyBuyingCosts investmentReturnRate
    maxMonths initialCashOut k,
  (List.length monthlyBuyingCosts <= k < maxMonths)%nat ->
  let kt := calculateKeepInvestmentTracking monthlyBuyingCosts investmentReturnRate
              maxMonths initialCashOut in
  nth_error (monthlyKeepNetPosition kt) k = Some NaN /\
  nth_error (monthlyKeepInvestmentReturns kt) k
    = Some (match k with O => 0 | S j => nth j (monthlyKeepInvestmentReturns kt) 0 end).
Proof.
  intros c rate maxMonths init k Hk kt. unfold kt, calculateKeepInvestmentTracking.
  cbn [monthlyKeepNetPosition monthlyKeepInvestmentReturns].
  rewrite !nth_error_map, keep_loop_past_end by lia.
  split; [reflexivity|]. destruct k as [|j]; [reflexivity|].
  cbn [option_map snd]. f_equal.
  rewrite nth_map_snd_num. reflexivity.
Qed.

Theorem keep_tracking_past_costs_witness :
  (List.length [10] <= 2 < 3)%nat /\
  nth_error (monthlyKeepNetPosition (calculateKeepInvestmentTracking [10] 6 3 100)) 2
    = Some NaN /\
  nth_error (monthlyKeepInvestmentReturns (calculateKeepInvestmentTracking [10] 6 3 100)) 2
    = Some (nth 1 (monthlyKeepInvestmentReturns
                     (calculateKeepInvestmentTracking [10] 6 3 100)) 0).
Proof.
  split; [simpl; lia|].
  exact (keep_tracking_past_costs [10] 6 3 100 2 ltac:(simpl; lia)).
Defined.

(** * Resuming a loan part-way (getEffectiveLoanValues) *)

Lemma amortize_add : forall P r a b B,
  amortize P r (a + b) B = amortize P r b (amortize P r a B).
Proof.
  intros P r a. induction a as [|a IH]; intros b B; [reflexivity|].
  simpl. apply IH.
Qed.

Lemma getEffectiveLoanValues_resumed : forall inputs t,
  0 < loanAmount inputs -> includeRefinance inputs <> Some true ->
  remainingLoanTerm inputs = Some t -> (t < loanTerm inputs)%nat ->
  let r := loanRate inputs / 100 / 12 in
  let P := calculateMonthlyPayment (loanAmount inputs) r (loanTerm inputs) in
  let b := amortize P r (loanTerm inputs - t) (loanAmount inputs) in
  getEffectiveLoanValues inputs =
  {| effectiveLoanAmount := b; effectiveLoanTerm := t;
     monthlyLoanPayment := calculateMonthlyPayment b r t; refinanceCashOut := 0 |}.
Proof.
  intros inputs t Hpos Href Hrt Ht r P b. unfold getEffectiveLoanValues.
  destruct (Rle_dec (loanAmount inputs) 0) as [C|_]; [lra|].
  replace (match includeRefinance inputs with Some true => true | _ => false end) with false
    by (destruct (includeRefinance inputs) as [[|]|]; congruence).
  rewrite Hrt. replace (loanTerm inputs <=? t)%nat with false
    by (symmetry; apply Nat.leb_gt; exact Ht).
  reflexivity.
Qed.

(** Re-spreading the balance left after [n - t] level payments over the
    last [t] months gives the same level payment. *)
Lemma resumed_payment_eq : forall B r n t,
  (1 <= t < n)%nat ->
  (r = 0 \/ ((1 + r) ^ n <> 1 /\ (1 + r) ^ t <> 1)) ->
  calculateMonthlyPayment
    (amortize (calculateMonthlyPayment B r n) r (n - t) B) r t
    = calculateMonthlyPayment B r n.
Proof.
  intros B r n t Ht Hden.
  destruct (Req_EM_T r 0) as [Hr0|Hr0].
  - subst r. rewrite amortize_zero_rate. unfold calculateMonthlyPayment.
    destruct (Req_EM_T 0 0) as [_|C]; [|contradiction].
    assert (HnR : INR n = INR (n - t) + INR t) by (rewrite <- plus_INR; f_equal; lia).
    assert (HtR : INR t <> 0) by (apply not_0_INR; lia).
    assert (HnR0 : INR n <> 0) by (apply not_0_INR; lia).
    rewrite HnR. rewrite HnR in HnR0.
    generalize dependent (INR (n - t)). generalize dependent (INR t).
    intros u Hu v Hv1 Hv2. field. split; assumption.
  - destruct Hden as [C|[Hf Hg]]; [contradiction|].
    rewrite amortize_closed_form by assumption.
    unfold calculateMonthlyPayment.
    destruct (Req_EM_T r 0) as [C|_]; [contradiction|].
    assert (Hxy : (1 + r) ^ n = (1 + r) ^ (n - t) * (1 + r) ^ t)
      by (rewrite <- pow_add; f_equal; lia).
    rewrite Hxy in *.
    set (x := (1 + r) ^ (n - t)) in *. set (y := (1 + r) ^ t) in *.
    assert (Hy : y - 1 <> 0) by lra.
    assert (Hd : x * y - 1 <> 0) by lra.
    field. repeat split; assumption.
Qed.

(** Resuming a loan with [t] of its [loanTerm] months left keeps the
    original level payment: the balance after the elapsed months, spread
    over the [t] remaining ones, gives the same payment (exact arithmetic;
    the rate 0, or (1+r)^loanTerm and (1+r)^t different from 1). *)
Theorem resumed_loan_same_payment : forall inputs t,
  0 < loanAmount inputs -> includeRefinance inputs <> Some true ->
  remainingLoanTerm inputs = Some t -> (1 <= t < loanTerm inputs)%nat ->
  let r := loanRate inputs / 100 / 12 in
  (r = 0 \/ ((1 + r) ^ loanTerm inputs <> 1 /\ (1 + r) ^ t <> 1)) ->
  effectiveLoanTerm (getEffectiveLoanValues inputs) = t /\
  monthlyLoanPayment (getEffectiveLoanValues inputs)
    = calculateMonthlyPayment (loanAmount inputs) r (loanTerm inputs).
Proof.
  intros inputs t Hpos Href Hrt Ht r Hden.
  rewrite (getEffectiveLoanValues_resumed inputs t Hpos Href Hrt ltac:(lia)).
  cbn [effectiveLoanTerm monthlyLoanPayment]. split; [reflexivity|].
  apply resumed_payment_eq; assumption.
Qed.

Lemma pow_gt_1_ne : forall r n, 0 < r -> (0 < n)%nat -> (1 + r) ^ n <> 1.
Proof.
  intros r n Hr Hn. apply Rgt_not_eq. apply Rlt_pow_R1; [lra | exact Hn].
Qed.

Theorem resumed_loan_same_payment_witness :
  effectiveLoanTerm (getEffectiveLoanValues resumed_example) = 12%nat /\
  monthlyLoanPayment (getEffectiveLoanValues resumed_example)
    = calculateMonthlyPayment 80000 (6 / 100 / 12) 24.
Proof.
  apply (resumed_loan_same_payment resumed_example 12);
    [cbn; lra | cbn; discriminate | reflexivity | cbn; lia | ].
  right. split; apply pow_gt_1_ne; cbn; lra || lia.
Defined.

(** The schedule of a resumed loan is the tail of the full schedule: the
    balance [i] months after resuming is the balance of the same loan, not
    resumed, [i] months later than the months already elapsed. *)
Theorem resumed_schedule_tail : forall inputs t i,
  0 < loanAmount inputs -> includeRefinance inputs <> Some true ->
  remainingLoanTerm inputs = Some t -> (1 <= t < loanTerm inputs)%nat ->
  let r := loanRate inputs / 100 / 12 in
  (r = 0 \/ ((1 + r) ^ loanTerm inputs <> 1 /\ (1 + r) ^ t <> 1)) ->
  (i < t)%nat -> (i + (loanTerm inputs - t) < 360)%nat ->
  nth_error (remainingLoanBalance (populateMonthlyCosts inputs)) i
    = nth_error (remainingLoanBalance
                   (populateMonthlyCosts (with_remainingLoanTerm inputs None)))
                (i + (loanTerm inputs - t)).
Proof.
  intros inputs t i Hpos Href Hrt Ht r Hden Hi H360.
  destruct (populateMonthlyCosts_nth inputs i ltac:(lia)) as [_ [_ [E1 _]]].
  destruct (populateMonthlyCosts_nth (with_remainingLoanTerm inputs None)
              (i + (loanTerm inputs - t)) H360) as [_ [_ [E2 _]]].
  rewrite E1, E2. f_equal.
  pose proof (getEffectiveLoanValues_resumed inputs t Hpos Href Hrt ltac:(lia)) as G1.
  assert (G2 := getEffectiveLoanValues_plain (with_remainingLoanTerm inputs None)
                  Hpos Href ltac:(intros ? C; discriminate C)).
  destruct (pmc_row_in_term inputs i) as [B1 _]; [rewrite G1; exact Hi|].
  destruct (pmc_row_in_term (with_remainingLoanTerm inputs None) (i + (loanTerm inputs - t)))
    as [B2 _]; [rewrite G2; cbn; lia|].
  rewrite B1, B2, G1, G2. cbn [effectiveLoanAmount monthlyLoanPayment with_remainingLoanTerm
                              loanAmount loanRate loanTerm].
  fold r. rewrite resumed_payment_eq by assumption.
  replace (S (i + (loanTerm inputs - t))) with ((loanTerm inputs - t) + S i)%nat by lia.
  rewrite amortize_add. reflexivity.
Qed.

Theorem resumed_schedule_tail_witness :
  nth_error (remainingLoanBalance (populateMonthlyCosts resumed_example)) 3
    = nth_error (remainingLoanBalance
                   (populateMonthlyCosts (with_remainingLoanTerm resumed_example None)))
                (3 + (24 - 12)).
Proof.
  apply (resumed_schedule_tail resumed_example 12 3);
    [cbn; lra | cbn; discriminate | reflexivity | cbn; lia | | lia | cbn; lia].
  right. split; apply pow_gt_1_ne; cbn; lra || lia.
Defined.

(** * calculateAssetValue *)

Lemma rate_for_year_nth : forall rates y, rates <> [] ->
  rate_for_year rates y = Some (nth (Nat.min y (List.length rates - 1)) rates 0).
Proof.
  intros rates y Hne. unfold rate_for_year, js_index.
  assert (HL : (1 <= List.length rates)%nat)
    by (destruct rates; [congruence | simpl; lia]).
  replace (Z.min (Z.of_nat y) (Z.of_nat (List.length rates) - 1))
    with (Z.of_nat (Nat.min y (List.length rates - 1))) by lia.
  replace (Z.of_nat (Nat.min y (List.length rates - 1)) <? 0)%Z with false
    by (symmetry; apply Z.ltb_ge; lia).
  rewrite Nat2Z.id. apply nth_error_nth'. lia.
Qed.

Lemma appreciate_years_snoc : forall rates n yr v,
  appreciate_years rates yr (S n) v
    = nmul (appreciate_years rates yr n v)
           (option_map (fun r => 1 + r / 100) (rate_for_year rates (yr + n))).
Proof.
  intros rates n. induction n as [|n IH]; intros yr v.
  - cbn [appreciate_years]. rewrite Nat.add_0_r. reflexivity.
  - cbn [appreciate_years]. cbn [appreciate_years] in IH. rewrite IH.
    rewrite Nat.add_succ_r. reflexivity.
Qed.

Lemma appreciate_years_single : forall r n yr v,
  appreciate_years [r] yr n (Some v) = Some (v * (1 + r / 100) ^ n).
Proof.
  intros r n. induction n as [|n IH]; intros yr v.
  - cbn. f_equal. ring.
  - cbn [appreciate_years]. rewrite rate_for_year_nth by discriminate.
    cbn [List.length Nat.sub]. rewrite Nat.min_0_r. cbn [nth option_map nmul nlift2].
    rewrite IH. f_equal. simpl pow. ring.
Qed.

(** With a single appreciation rate [r] above -100%, the value after
    [months] months is [startingPrice * (1 + r/100)^(months/12)]: whole years
    and the fractional last year compound alike. *)
Theorem asset_value_single_rate : forall startingPrice months r,
  -100 < r ->
  calculateAssetValue startingPrice months [r]
    = Some (startingPrice * Rpower (1 + r / 100) (INR months / 12)).
Proof.
  intros P m r Hr. unfold calculateAssetValue. cbv zeta.
  rewrite appreciate_years_single, rate_for_year_nth by discriminate.
  cbn [List.length Nat.sub]. rewrite Nat.min_0_r. cbn [nth].
  assert (Hx : 0 < 1 + r / 100) by lra.
  assert (Hm : INR m / 12 = INR (m / 12) + INR (m mod 12) / 12).
  { rewrite (Nat.div_mod_eq m 12) at 1. rewrite plus_INR, mult_INR.
    simpl (INR 12). field. }
  destruct (0 <? m mod 12)%nat eqn:E.
  - unfold js_pow_frac. destruct (Rlt_dec 0 (1 + r / 100)) as [_|C]; [|lra].
    cbn [nmul nlift2]. f_equal.
    rewrite Hm, Rpower_plus, Rpower_pow by exact Hx. ring.
  - apply Nat.ltb_ge in E. assert (E0 : (m mod 12 = 0)%nat) by lia.
    rewrite Hm, E0. simpl (INR 0). f_equal.
    replace (INR (m / 12) + 0 / 12) with (INR (m / 12)) by field.
    rewrite Rpower_pow by exact Hx. reflexivity.
Qed.

Theorem asset_value_single_rate_witness :
  calculateAssetValue 200000 30 [5] = Some (200000 * Rpower (1 + 5 / 100) (INR 30 / 12)).
Proof.
  apply asset_value_single_rate. lra.
Defined.

(** Each further whole year multiplies the value by that year's factor,
    [1 + rate/100], the rate taken at index [min(year, length - 1)]: past
    the end of the list the last rate repeats. *)
Theorem asset_value_next_year : forall startingPrice rates y,
  rates <> [] ->
  calculateAssetValue startingPrice (12 * S y) rates
    = nmul (calculateAssetValue startingPrice (12 * y) rates)
           (Some (1 + nth (Nat.min y (List.length rates - 1)) rates 0 / 100)).
Proof.
  intros P rates y Hne. unfold calculateAssetValue. cbv zeta.
  replace (12 * S y)%nat with (S y * 12)%nat by lia.
  replace (12 * y)%nat with (y * 12)%nat by lia.
  rewrite !Nat.div_mul, !Nat.Div0.mod_mul by lia. cbn [Nat.ltb Nat.leb].
  rewrite appreciate_years_snoc, rate_for_year_nth by exact Hne. reflexivity.
Qed.

Theorem asset_value_next_year_witness :
  calculateAssetValue 100000 (12 * S 3) [10; 5]
    = nmul (calculateAssetValue 100000 (12 * 3) [10; 5])
           (Some (1 + nth (Nat.min 3 (List.length [10; 5] - 1)) [10; 5] 0 / 100)).
Proof.
  apply asset_value_next_year. discriminate.
Defined.

(** * calculateSaleProceeds *)

(** With selling included and a non-negative tax rate, the tax on gains is
    NaN exactly when the sale price is (an undefined appreciation rate);
    otherwise the capital gains and the tax are numbers, the tax is never
    negative, and it is 0 when the gains do not exceed the tax-free limit of
    the sale year. *)
Theorem sale_tax_nonneg : forall inputs months rlb eff,
  0 <= capitalGainsTax inputs ->
  let sp := calculateSaleProceeds inputs months rlb eff true in
  (salePrice sp = NaN -> capitalGains sp = NaN /\ taxOnGains sp = NaN) /\
  (forall p, salePrice sp = Some p ->
   exists g t, capitalGains sp = Some g /\ taxOnGains sp = Some t /\ 0 <= t /\
     (g <= taxFreeLimitAt (taxFreeLimits inputs) (months / 12) -> t = 0)).
Proof.
  intros inputs months rlb eff Hc sp. subst sp.
  unfold calculateSaleProceeds. cbn [negb salePrice capitalGains taxOnGains].
  destruct (calculateAssetValue _ months (appreciationRate inputs)) as [v|].
  - split; [discriminate|]. intros p _.
    cbn [option_map nsub nmul nadd nlift2].
    do 2 eexists. split; [reflexivity|]. split; [reflexivity|]. split.
    + apply Rmult_le_pos; [apply Rmax_l | lra].
    + intro Hle. rewrite Rmax_left by lra. ring.
  - split; [split; reflexivity|]. intros p Hp. discriminate.
Qed.

Theorem sale_tax_nonneg_witness :
  let sp := calculateSaleProceeds (mk_inputs buy_vs_rent 0 100000 0 0 0 0 6) 24 [] None true in
  (salePrice sp = NaN -> capitalGains sp = NaN /\ taxOnGains sp = NaN) /\
  exists g t, capitalGains sp = Some g /\ taxOnGains sp = Some t /\ 0 <= t /\
    (g <= taxFreeLimitAt [0] (24 / 12) -> t = 0).
Proof.
  intro sp.
  destruct (sale_tax_nonneg (mk_inputs buy_vs_rent 0 100000 0 0 0 0 6) 24 [] None
              ltac:(cbn; lra)) as [A B].
  assert (Hp : exists p, salePrice sp = Some p) by (eexists; reflexivity).
  destruct Hp as [p Hp].
  split; [exact A | exact (B p Hp)].
Defined.

(** Called at month 0 without the loan amount, the payoff is estimated from
    the first two scheduled balances as [E + r * (E - b0)], where [E] is the
    loan amount and [b0] the balance after the first payment: above [E]
    by the first month's interest on the principal repaid. *)
Theorem sale_month0_fallback : forall inputs incl,
  (2 <= effectiveLoanTerm (getEffectiveLoanValues inputs))%nat ->
  let E := effectiveLoanAmount (getEffectiveLoanValues inputs) in
  let r := loanRate inputs / 100 / 12 in
  exists b0,
    nth_error (remainingLoanBalance (populateMonthlyCosts inputs)) 0 = Some b0 /\
    loanPayoff (calculateSaleProceeds inputs 0
                  (remainingLoanBalance (populateMonthlyCosts inputs)) None incl)
      = Some (E + r * (E - b0)).
Proof.
  intros inputs incl HT E r.
  destruct (populateMonthlyCosts_nth inputs 0 ltac:(lia)) as [_ [_ [E0 _]]].
  destruct (populateMonthlyCosts_nth inputs 1 ltac:(lia)) as [_ [_ [E1 _]]].
  destruct (pmc_row_in_term inputs 0 ltac:(lia)) as [B0 _].
  destruct (pmc_row_in_term inputs 1 ltac:(lia)) as [B1 _].
  exists (loanBalanceAt (pmc_row inputs 0)). split; [exact E0|].
  remember (remainingLoanBalance (populateMonthlyCosts inputs)) as rlb eqn:Hrlb.
  assert (L : loanPayoff (calculateSaleProceeds inputs 0 rlb None incl)
              = nadd (nth_error rlb 0) (nsub (nth_error rlb 0) (nth_error rlb 1)))
    by (unfold calculateSaleProceeds; destruct incl; reflexivity).
  rewrite L, E0, E1. cbn [nadd nsub nlift2]. f_equal.
  rewrite B0, B1. fold E r. cbn [amortize]. ring.
Qed.

Theorem sale_month0_fallback_witness :
  exists b0,
    nth_error (remainingLoanBalance (populateMonthlyCosts resumed_example)) 0 = Some b0 /\
    loanPayoff (calculateSaleProceeds resumed_example 0
                  (remainingLoanBalance (populateMonthlyCosts resumed_example)) None false)
      = Some (effectiveLoanAmount (getEffectiveLoanValues resumed_example)
              + loanRate resumed_example / 100 / 12
                * (effectiveLoanAmount (getEffectiveLoanValues resumed_example) - b0)).
Proof.
  apply (sale_month0_fallback resumed_example false).
  rewrite (getEffectiveLoanValues_resumed resumed_example 12); cbn; lra || lia || discriminate || reflexivity.
Defined.

(** * calculate, payoff_vs_invest: the PAYOFF path *)

Lemma payoff_step_invariant : forall r g e prp E K s,
  payoff_invariant E K s -> payoff_invariant E K (payoff_step r g e prp s).
Proof.
  intros r g e prp E K s (H0 & HP & HN & HE & HL & HZ). unfold payoff_step.
  destruct (loanPaidOff s) eqn:Hp; destruct (Rlt_dec 0 (payoffBal s)) as [Hb|Hb];
    cbn [negb andb].
  - specialize (HL eq_refl). lra.
  - unfold payoff_invariant; cbn [payoffBal payoffNetPosition loanPaidOff payoffTotalPrincipal
      payoffTotalInterest payoffTotalEffectivePayment payoffTotalContributions
      payoffTotalReturns].
    repeat split; try lra; intros; lra.
  - set (a := Rmin (prp - payoffBal s * r + e) (payoffBal s)).
    assert (Ha : a <= payoffBal s) by apply Rmin_r.
    destruct (HZ Hb) as (Z1 & Z2 & Z3).
    destruct (Rle_dec (payoffBal s - a) 0) as [Hc|Hc];
      unfold payoff_invariant; cbn [payoffBal payoffNetPosition loanPaidOff payoffTotalPrincipal
        payoffTotalInterest payoffTotalEffectivePayment payoffTotalContributions
        payoffTotalReturns];
      repeat split; try lra; intros; try lra; congruence.
  - unfold payoff_invariant; cbn [payoffBal payoffNetPosition loanPaidOff payoffTotalPrincipal
      payoffTotalInterest payoffTotalEffectivePayment payoffTotalContributions
      payoffTotalReturns].
    repeat split; try lra; intros; try lra; auto.
Qed.

Lemma payoff_loop_invariant : forall r g e prp E K n s,
  payoff_invariant E K s -> Forall (payoff_invariant E K) (payoff_loop r g e prp n s).
Proof.
  intros r g e prp E K n. induction n as [|n IH]; intros s Hs; cbn [payoff_loop];
    constructor.
  - apply payoff_step_invariant. exact Hs.
  - apply IH. apply payoff_step_invariant. exact Hs.
Qed.

(** The rows of the PAYOFF loop as [calculate] runs it. *)
Lemma payoff_rows_invariant : forall inputs,
  let elv := getEffectiveLoanValues inputs in
  let pv := calculate_payoffVsInvest inputs in
  let X := or_zero (extraUpfrontPayment inputs) in
  exists rows,
    Forall (payoff_invariant (effectiveLoanAmount elv) (X - upfrontPrincipal pv)) rows /\
    payoffLoanBalances pv = map payoffBal rows /\
    payoffInvestmentValues pv = map payoffNetPosition rows /\
    payoffCumulativePrincipal pv = map payoffTotalPrincipal rows /\
    payoffCumulativeInterest pv = map payoffTotalInterest rows /\
    payoffCumulativeEffectivePayment pv = map payoffTotalEffectivePayment rows /\
    payoffCumulativeContributions pv = map payoffTotalContributions rows /\
    payoffCumulativeReturns pv = map payoffTotalReturns rows /\
    List.length rows = 360%nat.
Proof.
  intros inputs elv pv X. unfold pv, calculate_payoffVsInvest. cbv zeta. fold elv X.
  eexists. split; [|repeat split; reflexivity].
  apply payoff_loop_invariant.
  set (E := effectiveLoanAmount elv).
  assert (Hm : Rmin X E <= E) by apply Rmin_r.
  unfold payoff_invariant; cbn [payoffBal payoffNetPosition loanPaidOff payoffTotalPrincipal
    payoffTotalInterest payoffTotalEffectivePayment payoffTotalContributions
    payoffTotalReturns upfrontPrincipal].
  repeat split; try lra.
  - destruct (Rle_dec (E - Rmin X E) 0); intro H; [lra | discriminate].
Qed.

Lemma Forall2_map_map : forall {A B C} (P : B -> C -> Prop) (f : A -> B) (g : A -> C) l,
  Forall (fun x => P (f x) (g x)) l -> Forall2 P (map f l) (map g l).
Proof.
  intros A B C P f g l H. induction H; constructor; assumption.
Qed.

Lemma combine_map_map : forall {A B C} (f : A -> B) (g : A -> C) l,
  combine (map f l) (map g l) = map (fun x => (f x, g x)) l.
Proof.
  intros A B C f g l. induction l as [|a l IH]; [reflexivity|]. simpl. rewrite IH. reflexivity.
Qed.

(** The PAYOFF path never has a negative balance, and the principal paid
    so far (upfront payment included) plus the balance is always the loan
    amount. *)
Theorem payoff_balance_accounting : forall inputs,
  let pv := calculate_payoffVsInvest inputs in
  Forall2 (fun principal balance =>
             0 <= balance /\
             principal + balance = effectiveLoanAmount (getEffectiveLoanValues inputs))
          (payoffCumulativePrincipal pv) (payoffLoanBalances pv).
Proof.
  intros inputs pv. subst pv.
  destruct (payoff_rows_invariant inputs) as (rows & HF & Hb & Hv & Hp & Hi & He & Hc & Hr & _).
  rewrite Hp, Hb. apply Forall2_map_map.
  eapply Forall_impl; [|exact HF]. intros s (A & B & _). split; assumption.
Qed.

(** On the PAYOFF path the invested amount is always the contributions
    plus the returns so far. *)
Theorem payoff_investment_accounting : forall inputs,
  let pv := calculate_payoffVsInvest inputs in
  Forall2 (fun value cr => value = fst cr + snd cr)
          (payoffInvestmentValues pv)
          (combine (payoffCumulativeContributions pv) (payoffCumulativeReturns pv)).
Proof.
  intros inputs pv. subst pv.
  destruct (payoff_rows_invariant inputs) as (rows & HF & Hb & Hv & Hp & Hi & He & Hc & Hr & _).
  rewrite Hv, Hc, Hr, combine_map_map. apply Forall2_map_map.
  eapply Forall_impl; [|exact HF]. intros s (_ & _ & N & _). exact N.
Qed.

(** While the PAYOFF path still owes a positive balance nothing has been
    invested: the investment value and the contributions are 0. *)
Theorem payoff_no_investing_while_owing : forall inputs,
  let pv := calculate_payoffVsInvest inputs in
  Forall2 (fun balance vc => 0 < balance -> fst vc = 0 /\ snd vc = 0)
          (payoffLoanBalances pv)
          (combine (payoffInvestmentValues pv) (payoffCumulativeContributions pv)).
Proof.
  intros inputs pv. subst pv.
  destruct (payoff_rows_invariant inputs) as (rows & HF & Hb & Hv & Hp & Hi & He & Hc & Hr & _).
  rewrite Hb, Hv, Hc, combine_map_map. apply Forall2_map_map.
  eapply Forall_impl; [|exact HF]. intros s (_ & _ & _ & _ & _ & Z) H.
  destruct (Z H) as (Z1 & Z2 & _). split; assumption.
Qed.

(** The PAYOFF path's cumulative effective payment is the principal plus
    the interest paid so far, plus the part of the upfront payment that
    exceeds the loan (counted in full although it repays nothing). *)
Theorem payoff_effective_payment : forall inputs,
  let pv := calculate_payoffVsInvest inputs in
  Forall2 (fun eff pi =>
             eff = fst pi + snd pi + (or_zero (extraUpfrontPayment inputs) - upfrontPrincipal pv))
          (payoffCumulativeEffectivePayment pv)
          (combine (payoffCumulativePrincipal pv) (payoffCumulativeInterest pv)).
Proof.
  intros inputs pv. subst pv.
  destruct (payoff_rows_invariant inputs) as (rows & HF & Hb & Hv & Hp & Hi & He & Hc & Hr & _).
  rewrite He, Hp, Hi, combine_map_map. apply Forall2_map_map.
  eapply Forall_impl; [|exact HF]. intros s (_ & _ & _ & E & _). exact E.
Qed.

Lemma payoff_step_zero : forall r g e prp s,
  payoffBal s = 0 -> payoffBal (payoff_step r g e prp s) = 0.
Proof.
  intros r g e prp s H. unfold payoff_step.
  destruct (Rlt_dec 0 (payoffBal s)) as [C|_]; [lra|].
  rewrite andb_false_r. exact H.
Qed.

Lemma payoff_loop_zero_next : forall r g e prp n s i,
  (S i < n)%nat ->
  option_map payoffBal (nth_error (payoff_loop r g e prp n s) i) = Some 0 ->
  option_map payoffBal (nth_error (payoff_loop r g e prp n s) (S i)) = Some 0.
Proof.
  intros r g e prp n. induction n as [|n IH]; intros s i Hi H; [lia|].
  cbn [payoff_loop] in *. destruct i as [|i].
  - destruct n as [|n]; [lia|]. cbn [payoff_loop nth_error option_map] in *.
    injection H as H. rewrite payoff_step_zero by exact H. reflexivity.
  - cbn [nth_error] in *. apply IH; [lia | exact H].
Qed.

(** Once the PAYOFF path's balance is 0 it stays 0 for the rest of the 360
    months: a paid-off loan never comes back. *)
Theorem payoff_stays_paid : forall inputs i j,
  (i <= j < 360)%nat ->
  nth_error (payoffLoanBalances (calculate_payoffVsInvest inputs)) i = Some 0 ->
  nth_error (payoffLoanBalances (calculate_payoffVsInvest inputs)) j = Some 0.
Proof.
  intros inputs i j Hij H. unfold calculate_payoffVsInvest in *. cbv zeta in *.
  cbn [payoffLoanBalances] in *. rewrite nth_error_map in *.
  assert (Hk : exists k, j = (i + k)%nat) by (exists (j - i)%nat; lia).
  destruct Hk as [k ->]. induction k as [|k IHk].
  - rewrite Nat.add_0_r. exact H.
  - rewrite Nat.add_succ_r. apply payoff_loop_zero_next; [lia|]. apply IHk. lia.
Qed.

Theorem payoff_stays_paid_witness :
  nth_error (payoffLoanBalances (calculate_payoffVsInvest payoff_example)) 100 = Some 0.
Proof.
  apply (payoff_stays_paid payoff_example 0 100); [lia|].
  unfold calculate_payoffVsInvest.
  rewrite getEffectiveLoanValues_no_loan by (cbn; lra).
  cbv zeta. cbn [payoffLoanBalances effectiveLoanAmount or_zero extraUpfrontPayment
                 payoff_example mk_inputs payoff_loop map nth_error].
  f_equal. apply payoff_step_zero. cbn [payoffBal].
  rewrite Rmin_left by lra. ring.
Defined.

(** * calculate, payoff_vs_invest: the INVEST path *)

Lemma nth_map_lt : forall {A B} (f : A -> B) l d x j,
  (j < List.length l)%nat -> nth j (map f l) x = f (nth j l d).
Proof.
  intros A B f l d x j Hj. rewrite (nth_indep (map f l) x (f d)) by (rewrite length_map; lia).
  apply map_nth.
Qed.

Lemma Forall2_seq_nth_from : forall {B} (P : nat -> B -> Prop) (l : list B) d k n,
  List.length l = n -> (forall j, (j < n)%nat -> P (k + j)%nat (nth j l d)) ->
  Forall2 P (seq k n) l.
Proof.
  intros B P l d. induction l as [|a l IH]; intros k n Hl H; subst n; cbn [seq List.length];
    constructor.
  - specialize (H O ltac:(simpl; lia)). rewrite Nat.add_0_r in H. exact H.
  - apply IH; [reflexivity|]. intros j Hj.
    replace (S k + j)%nat with (k + S j)%nat by lia. apply (H (S j)). simpl; lia.
Qed.

Lemma Forall2_seq_nth : forall {B} (P : nat -> B -> Prop) (l : list B) d n,
  List.length l = n -> (forall j, (j < n)%nat -> P j (nth j l d)) ->
  Forall2 P (seq 0 n) l.
Proof.
  intros B P l d n Hl H. apply (Forall2_seq_nth_from P l d 0 n Hl). exact H.
Qed.

Section InvestLoopFacts.
Variables (r g e rp : R) (ltm : nat).

Lemma invest_step_facts : forall i s,
  let '(s1, m) := invest_step r g e rp ltm i s in
  investTotalContributions s1 = investTotalContributions s + e /\
  investTotalEffectivePayment s1 = investTotalEffectivePayment s + m /\
  investInvestment s1 = (investInvestment s + e) * (1 + g) /\
  (m = 0 \/ ((i < ltm)%nat /\ m = rp)).
Proof.
  intros i s. unfold invest_step.
  destruct (i <? ltm)%nat eqn:Hi; [destruct (Rlt_dec 0 (investBalance s))|];
    cbn [investInvestment investBalance investTotalEffectivePayment investTotalContributions];
    repeat split; try lra; auto.
  right. split; [apply Nat.ltb_lt; exact Hi | reflexivity].
Qed.

Lemma invest_loop_length : forall n k s,
  List.length (invest_loop r g e rp ltm k n s) = n.
Proof.
  intro n. induction n as [|n IH]; intros k s; [reflexivity|].
  cbn [invest_loop]. destruct (invest_step r g e rp ltm k s) as [s1 m].
  cbn [List.length]. rewrite IH. reflexivity.
Qed.

Lemma invest_loop_nth : forall n k s j d, (j < n)%nat ->
  let row := nth j (invest_loop r g e rp ltm k n s) d in
  investTotalContributions (fst row) = investTotalContributions s + INR (S j) * e /\
  investTotalEffectivePayment (fst row)
    = investTotalEffectivePayment s
      + fold_right Rplus 0 (firstn (S j) (map snd (invest_loop r g e rp ltm k n s))) /\
  (snd row = 0 \/ ((k + j < ltm)%nat /\ snd row = rp)) /\
  (g = 0 -> investInvestment s = investTotalContributions s ->
   investInvestment (fst row) = investTotalContributions (fst row)).
Proof.
  intro n. induction n as [|n IH]; intros k s j d Hj row; [lia|]. subst row.
  cbn [invest_loop]. pose proof (invest_step_facts k s) as F.
  destruct (invest_step r g e rp ltm k s) as [s1 m]. destruct F as (C & T & I & M).
  destruct j as [|j].
  - cbn [nth fst snd firstn map fold_right]. rewrite Nat.add_0_r.
    repeat split; try lra; auto.
    + rewrite C. simpl INR. ring.
    + intros Hg HI. rewrite I, C, HI, Hg. ring.
  - cbn [nth].
    destruct (IH (S k) s1 j d ltac:(lia)) as (C' & T' & M' & I').
    repeat split.
    + rewrite C', C, (S_INR (S j)). ring.
    + rewrite T', T. cbn [map snd]. rewrite firstn_cons. cbn [fold_right]. ring.
    + replace (k + S j)%nat with (S k + j)%nat by lia. exact M'.
    + intros Hg HI. apply I'; [exact Hg|]. rewrite I, C, HI, Hg. ring.
Qed.

End InvestLoopFacts.

Ltac invest_rows inputs :=
  unfold calculate_payoffVsInvest; cbv zeta;
  cbn [investCumulativeContributions investInvestmentValues
       investCumulativeEffectivePayment investMonthlyEffectivePayment].

Ltac invest_nth j Hj H :=
  match goal with
  | rows := invest_loop ?a ?b ?c ?d ?l _ _ ?s0 |- _ =>
      pose proof (invest_loop_nth a b c d l 360 0 s0 j (s0, 0) Hj) as H; cbv zeta in H;
      fold rows in H
  end.

(** The INVEST path's contributions grow linearly: after month [i] they are
    the upfront amount plus [i + 1] extra monthly payments. *)
Theorem invest_contributions_linear : forall inputs,
  Forall2 (fun i c => c = or_zero (extraUpfrontPayment inputs)
                          + INR (S i) * or_zero (extraMonthlyPayment inputs))
          (seq 0 360) (investCumulativeContributions (calculate_payoffVsInvest inputs)).
Proof.
  intros inputs. invest_rows inputs.
  set (s0 := {| investInvestment := _ |}). set (rows := invest_loop _ _ _ _ _ _ _ s0).
  assert (HL : List.length rows = 360%nat) by apply invest_loop_length.
  apply (Forall2_seq_nth _ _ 0); [rewrite length_map; exact HL|].
  intros j Hj. rewrite (nth_map_lt _ _ (s0, 0)) by lia.
  invest_nth j Hj HN. destruct HN as (C & _). exact C.
Qed.

(** The INVEST path pays the regular payment or nothing each month, and
    nothing from month [remainingLoanTerm || loanTerm] on. *)
Theorem invest_monthly_payment : forall inputs,
  let ltm := match remainingLoanTerm inputs with Some (S t) => S t | _ => loanTerm inputs end in
  Forall2 (fun i m => m = 0 \/ ((i < ltm)%nat /\
                                m = monthlyLoanPayment (getEffectiveLoanValues inputs)))
          (seq 0 360) (investMonthlyEffectivePayment (calculate_payoffVsInvest inputs)).
Proof.
  intros inputs ltm. invest_rows inputs.
  set (s0 := {| investInvestment := _ |}). set (rows := invest_loop _ _ _ _ _ _ _ s0).
  assert (HL : List.length rows = 360%nat) by apply invest_loop_length.
  apply (Forall2_seq_nth _ _ 0); [rewrite length_map; exact HL|].
  intros j Hj. rewrite (nth_map_lt _ _ (s0, 0)) by lia.
  invest_nth j Hj HN. destruct HN as (_ & _ & M & _). exact M.
Qed.

(** The INVEST path's cumulative effective payment is the running sum of
    its monthly effective payments. *)
Theorem invest_cumulative_running_sum : forall inputs,
  let pv := calculate_payoffVsInvest inputs in
  Forall2 (fun i c => c = fold_right Rplus 0 (firstn (S i) (investMonthlyEffectivePayment pv)))
          (seq 0 360) (investCumulativeEffectivePayment pv).
Proof.
  intros inputs pv. subst pv. invest_rows inputs.
  set (s0 := {| investInvestment := _ |}). set (rows := invest_loop _ _ _ _ _ _ _ s0).
  assert (HL : List.length rows = 360%nat) by apply invest_loop_length.
  apply (Forall2_seq_nth _ _ 0); [rewrite length_map; exact HL|].
  intros j Hj. rewrite (nth_map_lt _ _ (s0, 0)) by lia.
  invest_nth j Hj HN. destruct HN as (_ & T & _).
  rewrite T. cbn [investTotalEffectivePayment s0]. ring.
Qed.

(** At a 0% return the INVEST path's investment is exactly what was put
    in: the values equal the cumulative contributions. *)
Theorem invest_zero_return : forall inputs,
  investmentReturnRate inputs = 0 ->
  investInvestmentValues (calculate_payoffVsInvest inputs)
    = investCumulativeContributions (calculate_payoffVsInvest inputs).
Proof.
  intros inputs H0. invest_rows inputs.
  set (s0 := {| investInvestment := _ |}). set (rows := invest_loop _ _ _ _ _ _ _ s0).
  assert (HL : List.length rows = 360%nat) by apply invest_loop_length.
  apply (nth_ext _ _ 0 0); [rewrite !length_map; reflexivity|].
  intros j Hj. rewrite length_map, HL in Hj.
  rewrite !(nth_map_lt _ _ (s0, 0)) by lia.
  invest_nth j Hj HN. destruct HN as (_ & _ & _ & I).
  apply I; [rewrite H0; field | reflexivity].
Qed.

Theorem invest_zero_return_witness :
  investInvestmentValues (calculate_payoffVsInvest payoff_example)
    = investCumulativeContributions (calculate_payoffVsInvest payoff_example).
Proof.
  apply invest_zero_return. reflexivity.
Defined.

(** * calculate: the amortization table *)

(** In every row of the amortization table up to the end of the loan term,
    the principal paid so far plus the loan balance is the loan amount. *)
Theorem amortization_table_accounting : forall inputs rows,
  calculate_amortizationTable inputs = Some rows ->
  let elv := getEffectiveLoanValues inputs in
  Forall2 (fun p row => (months p <= effectiveLoanTerm elv)%nat ->
                        nadd (principalPaid row) (loanBalance row)
                          = Some (effectiveLoanAmount elv))
          (getPeriods (effectiveLoanTerm elv) (projectionYears inputs)) rows.
Proof.
  intros inputs rows H elv. unfold calculate_amortizationTable in H. cbv zeta in H.
  fold elv in H.
  assert (Hrows : rows = map (amortization_row (populateMonthlyCosts inputs) elv
                               (mortgageInterestDeduction inputs / 100))
                          (getPeriods (effectiveLoanTerm elv) (projectionYears inputs)))
    by (destruct (scenario inputs); [| |discriminate];
        destruct (Rlt_dec 0 (loanAmount inputs)); try discriminate; congruence).
  subst rows. apply Forall2_map_r. apply Forall_forall. intros p _ Hp.
  unfold amortization_row. destruct (months p =? 0)%nat eqn:E0.
  - cbn [principalPaid loanBalance nadd nlift2]. f_equal. ring.
  - apply Nat.eqb_neq in E0.
    destruct (populateMonthlyCosts_length inputs) as (_ & _ & Lb & _).
    set (k := Nat.min (months p - 1) 359).
    assert (Hk : month_index (months p) (remainingLoanBalance (populateMonthlyCosts inputs))
                 = Z.of_nat k) by (unfold month_index, k; rewrite Lb; lia).
    cbn [principalPaid loanBalance]. rewrite Hk. unfold js_index.
    replace (Z.of_nat k <? 0)%Z with false by (symmetry; apply Z.ltb_ge; lia).
    rewrite Nat2Z.id.
    destruct (populateMonthlyCosts_nth inputs k ltac:(unfold k; lia)) as (_ & _ & B & P & _).
    rewrite B, P. cbn [nadd nlift2].
    destruct (pmc_row_in_term inputs k ltac:(fold elv; unfold k; lia)) as [_ Hpr].
    rewrite Hpr. fold elv. f_equal. ring.
Qed.

Theorem amortization_table_accounting_witness :
  exists rows,
    calculate_amortizationTable resumed_example = Some rows /\
    Forall2 (fun p row => (months p <= effectiveLoanTerm (getEffectiveLoanValues resumed_example))%nat ->
                          nadd (principalPaid row) (loanBalance row)
                            = Some (effectiveLoanAmount (getEffectiveLoanValues resumed_example)))
            (getPeriods (effectiveLoanTerm (getEffectiveLoanValues resumed_example))
                        (projectionYears resumed_example)) rows.
Proof.
  assert (H : exists rows, calculate_amortizationTable resumed_example = Some rows).
  { unfold calculate_amortizationTable. cbn [scenario resumed_example with_remainingLoanTerm mk_inputs].
    destruct (Rlt_dec 0 (loanAmount _)) as [_|C]; [eexists; reflexivity|].
    cbn in C. lra. }
  destruct H as [rows H]. exists rows. split; [exact H|].
  exact (amortization_table_accounting resumed_example rows H).
Defined.

(** * calculate, buy_vs_rent: the expenditure table *)

Lemma sum_loop_nan : forall arr i n, sum_loop arr i n NaN = NaN.
Proof. intros arr i n. revert i. induction n as [|n IH]; intro i; [reflexivity|]. apply IH. Qed.

Lemma sum_loop_sub : forall b r n i x y,
  nsub (sum_loop b i n (Some x)) (sum_loop r i n (Some y))
    = savings_loop b r i n (Some (x - y)).
Proof.
  intros b r n. induction n as [|n IH]; intros i x y; [reflexivity|].
  cbn [sum_loop savings_loop].
  destruct (nth_error b i) as [u|]; destruct (nth_error r i) as [v|];
    cbn [nadd nsub nlift2].
  - rewrite IH. do 2 f_equal. ring.
  - rewrite sum_loop_nan, savings_loop_nan. destruct (sum_loop b (S i) n (Some (x + u)));
      reflexivity.
  - rewrite sum_loop_nan, savings_loop_nan. reflexivity.
  - rewrite !sum_loop_nan, savings_loop_nan. reflexivity.
Qed.

Lemma Forall2_map_indexed : forall {A B C} (P : B -> C -> Prop) (f : nat * A -> B)
    (g : A -> C) (l : list A) k,
  (forall i a, P (f (i, a)) (g a)) ->
  Forall2 P (map f (combine (seq k (List.length l)) l)) (map g l).
Proof.
  intros A B C P f g l. induction l as [|a l IH]; intros k H; cbn; constructor.
  - apply H.
  - apply IH. exact H.
Qed.

(** In every period the expenditure table's difference (buying minus renting
    expenditure) is the comparison table's cumulative savings. *)
Theorem expenditure_difference_is_savings : forall inputs,
  Forall2 (fun e c => exp_difference e = cmp_cumulativeSavings c)
          (calculate_expenditureTable inputs) (calculate_comparisonTable inputs).
Proof.
  intros inputs. unfold calculate_expenditureTable, calculate_comparisonTable. cbv zeta.
  apply Forall2_map_indexed. intros i p.
  unfold expenditure_row, comparison_row. cbv zeta.
  cbn [exp_difference cmp_cumulativeSavings]. apply sum_loop_sub.
Qed.

(** * calculate, payoff_vs_invest: the payoff amortization table *)

(** Every row of the payoff amortization table has principal paid plus loan
    balance equal to the loan amount, and an effective payment equal to
    principal plus interest plus the part of the upfront payment above the
    loan. *)
Theorem payoff_amortization_accounting : forall inputs,
  let E := effectiveLoanAmount (getEffectiveLoanValues inputs) in
  let K := or_zero (extraUpfrontPayment inputs)
           - upfrontPrincipal (calculate_payoffVsInvest inputs) in
  Forall (fun row =>
            nadd (principalPaid row) (loanBalance row) = Some E /\
            effectiveLoanPayment row = nadd (nadd (principalPaid row) (interestPaid row)) (Some K))
         (calculate_payoffAmortizationTable inputs).
Proof.
  intros inputs E K. unfold calculate_payoffAmortizationTable. cbv zeta.
  apply Forall_map. apply Forall_forall. intros p _.
  destruct (payoff_rows_invariant inputs) as (rows & HF & Hb & Hv & Hp & Hi & He & Hc & Hr & HL).
  fold E K in HF.
  unfold payoff_amortization_row. destruct (months p =? 0)%nat eqn:E0.
  - cbn [principalPaid loanBalance effectiveLoanPayment interestPaid nadd nlift2].
    unfold K, E. unfold calculate_payoffVsInvest. cbv zeta.
    cbn [upfrontPrincipal payoffStartingBalance]. split; f_equal; ring.
  - apply Nat.eqb_neq in E0.
    set (k := Nat.min (months p - 1) 359).
    replace (Z.min (Z.of_nat (months p) - 1) (360 - 1)) with (Z.of_nat k) by (unfold k; lia).
    unfold js_index.
    replace (Z.of_nat k <? 0)%Z with false by (symmetry; apply Z.ltb_ge; lia).
    rewrite Nat2Z.id.
    cbn [principalPaid loanBalance effectiveLoanPayment interestPaid].
    rewrite Hb, Hp, Hi, He, !nth_error_map.
    destruct (nth_error rows k) as [s|] eqn:Es;
      [|apply nth_error_None in Es; unfold k in Es; lia].
    assert (Hs : payoff_invariant E K s)
      by (rewrite Forall_forall in HF; apply HF; eapply nth_error_In; exact Es).
    destruct Hs as (_ & HP & _ & HE & _).
    cbn [option_map nadd nlift2]. split; f_equal; lra.
Qed.

(** * populateMonthlyCosts: the running costs *)

(** Month [i]'s renting cost is the initial monthly renting cost raised by
    inflation once per completed year; after the loan term the buying cost
    is the recurring expenses (insurance and taxes less income) raised the
    same way. *)
Theorem monthly_costs_closed_form : forall inputs i, (i < 360)%nat ->
  let f := (1 + inflationRate inputs / 100) ^ (i / 12) in
  nth_error (monthlyRentingCosts (populateMonthlyCosts inputs)) i
    = Some ((monthlyRent inputs + annualRentCosts inputs / 12 + otherAnnualCosts inputs / 12)
            * f) /\
  ((effectiveLoanTerm (getEffectiveLoanValues inputs) <= i)%nat ->
   nth_error (monthlyBuyingCosts (populateMonthlyCosts inputs)) i
     = Some (((annualInsurance inputs + annualTaxes inputs) / 12 - annualIncome inputs / 12)
             * f)).
Proof.
  intros inputs i Hi f. split; [apply monthlyRentingCosts_nth; exact Hi|].
  intro HT. destruct (populateMonthlyCosts_nth inputs i Hi) as [Hb _]. rewrite Hb. f_equal.
  unfold pmc_row, pmc_step, pmc_run. unfold month_step at 1.
  replace (i <? effectiveLoanTerm (getEffectiveLoanValues inputs))%nat with false
    by (symmetry; apply Nat.ltb_ge; exact HT).
  cbn [snd buyingCost]. rewrite (proj2 (inflated_costs _ _ _ _ _ i (pmc_start inputs))).
  reflexivity.
Qed.

Theorem monthly_costs_closed_form_witness :
  nth_error (monthlyRentingCosts (populateMonthlyCosts payoff_example)) 30
    = Some ((0 + 0 / 12 + 0 / 12) * (1 + 0 / 100) ^ (30 / 12)) /\
  nth_error (monthlyBuyingCosts (populateMonthlyCosts payoff_example)) 30
    = Some (((0 + 0) / 12 - 0 / 12) * (1 + 0 / 100) ^ (30 / 12)).
Proof.
  destruct (monthly_costs_closed_form payoff_example 30 ltac:(lia)) as [A B].
  split; [exact A|]. apply B.
  rewrite getEffectiveLoanValues_no_loan by (cbn; lra). cbn. lia.
Defined.

Theorem comparison_zero_return_market_witness :
  Forall2 (fun p row =>
             cmp_marketReturn row = if (months p <=? 360)%nat then Some 0 else NaN)
          (getPeriods (effectiveLoanTerm (getEffectiveLoanValues resumed_example))
                      (projectionYears resumed_example))
          (calculate_comparisonTable resumed_example).
Proof.
  apply comparison_zero_return_market. reflexivity.
Defined.
